(** * Replication controller of p2 (spenceral/p2): a shallow embedding

    The development follows the Go sources:
    - [src/pkg/rc/replication_controller.go] (reconciler and node transfer),
    - [src/pkg/store/consul/transaction/transaction_test.go] (the tests of the
      transaction buffer, whose implementation file is not part of [src/]).

    The KV store, the labeler, the scheduler and the alerter are collaborators
    reached through interfaces; they are modelled as an explicit [World]
    threaded through an error/state monad, and every interaction with them is
    recorded in an event log. *)

From Stdlib Require Import String List Bool Arith ZArith Lia Sorting Permutation.
Import ListNotations.
Open Scope string_scope.
Open Scope list_scope.

(* ------------------------------------------------------------------------- *)
(** ** Data model *)

Definition NodeName := string.
Definition PodID := string.

(** [manifest.Manifest]: an ID and its serialised contents. *)
Record Manifest := mkManifest { man_id : PodID; man_body : string }.

(** A Go [map[string]string] as an association list without duplicate keys. *)
Definition Labels := list (string * string).

Fixpoint map_get (m : Labels) (k : string) : option string :=
  match m with
  | [] => None
  | (k', v) :: m' => if String.eqb k k' then Some v else map_get m' k
  end.

(** [m[k] = v]: overwrite in place, or add the key. *)
Fixpoint map_set (m : Labels) (k v : string) : Labels :=
  match m with
  | [] => [(k, v)]
  | (k', v') :: m' =>
      if String.eqb k k' then (k', v) :: m' else (k', v') :: map_set m' k v
  end.

Definition map_delete (m : Labels) (k : string) : Labels :=
  filter (fun kv => negb (String.eqb (fst kv) k)) m.

(** [rcstatus.NodeTransfer] *)
Record NodeTransfer := mkNodeTransfer { OldNode : NodeName; NewNode : NodeName }.

(** The KV operations (api.KVTxnOp) the controller appends to transactions. *)
Inductive KVOp :=
| OpSetLabels (node : NodeName) (pod : PodID) (ls : Labels)     (* labeler SetLabelsTxn *)
| OpRemoveLabels (node : NodeName) (pod : PodID) (keys : list string) (* RemoveLabelsTxn *)
| OpSetIntent (node : NodeName) (m : Manifest)                  (* SetPodTxn(INTENT_TREE) *)
| OpDeletePodIntent (node : NodeName) (pod : PodID)             (* DeletePodTxn(INTENT_TREE) *)
| OpCASStatus (index : nat) (nt : option NodeTransfer)          (* rcStatusStore.CASTxn *)
| OpAudit (rcid : string) (before after : list NodeName)        (* audit-log record *)
| OpEmpty.                                                      (* api.KVTxnOp{} *)

(** Outcome of one [Txner.Txn] call: ok, rollback (ok=false, err=nil), or a
    transport error (err<>nil). *)
Inductive CallResult := CallOK | CallRollback | CallTransport.

(* ------------------------------------------------------------------------- *)
(** ** The transaction buffer (package transaction)

    [transaction.go] is not part of [src/]; only its tests are.  The
    operations below are modelled from the spec (section 4.A), and, for the
    inheritance of a parent's operations by [New], from the behaviour that
    [TestContextInheritsOperations] asserts. *)

Module Transaction.

Record tx := mkTx { kvOps : list KVOp; committed : bool }.

Inductive TxnError := ErrTooManyOperations | ErrAlreadyCommitted | ErrNoTransaction.

(** Modelled from the spec: Consul's per-transaction operation limit. *)
Definition maxOps := 64.

Definition emptyTx := mkTx [] false.

(** Modelled from the spec: [Add] on the transaction itself: fails once the
    buffer holds 64 operations, or once the transaction is committed. *)
Definition add_op (t : tx) (op : KVOp) : TxnError + tx :=
  if committed t then inl ErrAlreadyCommitted
  else if Nat.leb maxOps (length (kvOps t)) then inl ErrTooManyOperations
  else inr (mkTx (kvOps t ++ [op]) false).

(** Contexts carry a reference to a transaction held in a shared heap, as the
    Go context carries a pointer to a [tx] whose [kvOps] field is a pointer to
    a slice. *)
Definition Heap := list tx.
Record Ctx := mkCtx { ctx_txn : option nat }.
Definition Background := mkCtx None.

Fixpoint upd (h : Heap) (r : nat) (t : tx) : Heap :=
  match h, r with
  | [], _ => []
  | _ :: h', 0 => t :: h'
  | t' :: h', S r' => t' :: upd h' r' t
  end.

Definition getTxnFromContext (h : Heap) (c : Ctx) : TxnError + tx :=
  match ctx_txn c with
  | None => inl ErrNoTransaction
  | Some r => match nth_error h r with
              | Some t => inr t
              | None => inl ErrNoTransaction
              end
  end.

(** The length of the buffer ([len] of [txn.kvOps]) as observed through a context. *)
Definition opCount (h : Heap) (c : Ctx) : option nat :=
  match getTxnFromContext h c with
  | inr t => Some (length (kvOps t))
  | inl _ => None
  end.

(** The operations of the buffer ([txn.kvOps]) as observed through a context. *)
Definition ctxOps (h : Heap) (c : Ctx) : option (list KVOp) :=
  match getTxnFromContext h c with
  | inr t => Some (kvOps t)
  | inl _ => None
  end.

(** [New(parent)]: a fresh transaction is allocated for the new context.  When
    the parent carries a transaction its operations are inherited: the new
    buffer starts as a copy of the parent's operations
    (TestContextInheritsOperations: after [Add(ctx2, op)] the parent still
    holds one operation, and after two [Add(ctx, op)] the child still holds
    two). *)
Definition New (h : Heap) (parent : Ctx) : Heap * Ctx :=
  let inherited := match getTxnFromContext h parent with
                   | inr t => kvOps t
                   | inl _ => []
                   end in
  (h ++ [mkTx inherited false], mkCtx (Some (length h))).

(** [Add(ctx, op)] *)
Definition Add (h : Heap) (c : Ctx) (op : KVOp) : TxnError + Heap :=
  match ctx_txn c with
  | None => inl ErrNoTransaction
  | Some r =>
      match nth_error h r with
      | None => inl ErrNoTransaction
      | Some t => match add_op t op with
                  | inl e => inl e
                  | inr t' => inr (upd h r t')
                  end
      end
  end.

(** A sequence of [Add] calls on one context, stopping at the first error. *)
Fixpoint AddAll (h : Heap) (c : Ctx) (ops : list KVOp) : TxnError + Heap :=
  match ops with
  | [] => inr h
  | op :: ops' => match Add h c op with
                  | inl e => inl e
                  | inr h' => AddAll h' c ops'
                  end
  end.

(** *** CommitWithRetries

    Modelled from the spec: [CommitWithRetries(ctx, txner)] submits the
    buffer, returns at once on success or rollback, and on a transport error
    waits a fixed back-off and retries unless the context is done, in which
    case it returns [ok=false] with the last error.  The environment is given
    by [resp i], the outcome of the [i]-th store call, and [cancelled i],
    whether the context is done when the loop looks at it after the [i]-th
    call.  [fuel] bounds the number of iterations; [None] means the loop is
    still running.  The result is (number of store calls, ok, err <> nil). *)
Section Retries.
Variable resp : nat -> CallResult.
Variable cancelled : nat -> bool.

Fixpoint retry_loop (fuel i : nat) : option (nat * bool * bool) :=
  match fuel with
  | 0 => None
  | S fuel' =>
      match resp i with
      | CallOK => Some (S i, true, false)
      | CallRollback => Some (S i, false, false)
      | CallTransport =>
          if cancelled i then Some (S i, false, true)
          else retry_loop fuel' (S i)
      end
  end.

Definition CommitWithRetries (fuel : nat) : option (nat * bool * bool) :=
  retry_loop fuel 0.

End Retries.

End Transaction.

Import Transaction.

(* ------------------------------------------------------------------------- *)
(** ** The controller's collaborators *)

(** [fields.RC].  [ReplicasDesired] is a Go [int]. *)
Inductive AllocationStrategyKind := PinnedStrategy | CattleStrategy.

Record RC := mkRC {
  ID : string;
  RC_Manifest : Manifest;
  NodeSelector : string;
  ReplicasDesired : Z;
  Disabled : bool;
  PodLabels : Labels;
  AllocationStrategy : AllocationStrategyKind }.

(** The label keys of the source: [RCIDLabel] and [rcstore.PodIDLabel]. *)
Definition RCIDLabel := "replication_controller_id".
Definition PodIDLabel := "pod_id".

(** Interactions of the controller with the outside world, in the order they
    happen.  [EvScheduling] and [EvUnscheduling] are the INFO log lines
    "Scheduling on %s" and "Unscheduling from %s". *)
Inductive Event :=
| EvGetMatches                               (* podApplicator.GetMatches *)
| EvEligibleNodes                            (* scheduler.EligibleNodes *)
| EvPodRead (node : NodeName) (pod : PodID)  (* consulStore.Pod(INTENT_TREE, ..) *)
| EvStatusGet                                (* rcStatusStore.Get *)
| EvDeallocate (nodes : list NodeName)       (* scheduler.DeallocateNodes *)
| EvAllocate (count : nat)                   (* scheduler.AllocateNodes *)
| EvTxn (ops : list KVOp)                    (* txner.Txn *)
| EvAlert (msg : string)                     (* alerter.Alert *)
| EvScheduling (node : NodeName)
| EvUnscheduling (node : NodeName).

Definition PodKey := (NodeName * PodID)%type.

Definition key_eqb (a b : PodKey) : bool :=
  String.eqb (fst a) (fst b) && String.eqb (snd a) (snd b).

Fixpoint kv_get {V} (l : list (PodKey * V)) (k : PodKey) : option V :=
  match l with
  | [] => None
  | (k', v) :: l' => if key_eqb k k' then Some v else kv_get l' k
  end.

Fixpoint kv_set {V} (l : list (PodKey * V)) (k : PodKey) (v : V) : list (PodKey * V) :=
  match l with
  | [] => [(k, v)]
  | (k', v') :: l' => if key_eqb k k' then (k', v) :: l' else (k', v') :: kv_set l' k v
  end.

Definition kv_del {V} (l : list (PodKey * V)) (k : PodKey) : list (PodKey * V) :=
  filter (fun e => negb (key_eqb (fst e) k)) l.

(** The world seen by one controller: the label tree, the intent tree and the
    RC status record of the KV store; the answers of the scheduler; which
    interactions fail; what the store answers to the [n]-th [Txn] call; and
    the log of interactions. *)
Record World := mkWorld {
  w_labels : list (PodKey * Labels);
  w_intent : list (PodKey * Manifest);
  w_status : option NodeTransfer;
  w_eligible : list NodeName;
  w_alloc : list NodeName;
  w_fails : Event -> bool;
  w_txner : nat -> list KVOp -> CallResult;
  w_log : list Event }.

Definition log_ev (w : World) (e : Event) : World :=
  mkWorld (w_labels w) (w_intent w) (w_status w) (w_eligible w) (w_alloc w)
          (w_fails w) (w_txner w) (w_log w ++ [e]).

Definition is_txn (e : Event) : bool :=
  match e with EvTxn _ => true | _ => false end.

Definition txn_count (l : list Event) : nat := length (filter is_txn l).

(** The effect of a committed operation on the store. *)
Definition apply_op (w : World) (op : KVOp) : World :=
  match op with
  | OpSetLabels n p ls =>
      mkWorld (kv_set (w_labels w) (n, p) ls) (w_intent w) (w_status w)
              (w_eligible w) (w_alloc w) (w_fails w) (w_txner w) (w_log w)
  | OpRemoveLabels n p ks =>
      let ls := match kv_get (w_labels w) (n, p) with Some ls => ls | None => [] end in
      mkWorld (kv_set (w_labels w) (n, p) (fold_left map_delete ks ls)) (w_intent w)
              (w_status w) (w_eligible w) (w_alloc w) (w_fails w) (w_txner w) (w_log w)
  | OpSetIntent n m =>
      mkWorld (w_labels w) (kv_set (w_intent w) (n, man_id m) m) (w_status w)
              (w_eligible w) (w_alloc w) (w_fails w) (w_txner w) (w_log w)
  | OpDeletePodIntent n p =>
      mkWorld (w_labels w) (kv_del (w_intent w) (n, p)) (w_status w)
              (w_eligible w) (w_alloc w) (w_fails w) (w_txner w) (w_log w)
  | OpCASStatus _ nt =>
      mkWorld (w_labels w) (w_intent w) nt
              (w_eligible w) (w_alloc w) (w_fails w) (w_txner w) (w_log w)
  | OpAudit _ _ _ | OpEmpty => w
  end.

(* ------------------------------------------------------------------------- *)
(** ** An error/state monad for Go functions returning [error] *)

Inductive Err :=
| ErrTxn (e : TxnError)
| ErrTransport
| ErrRollback          (* "could not schedule pods due to transaction violation" *)
| ErrRead
| ErrHash
| ErrAlert
| ErrMsg (msg : string).

Inductive Result (A : Type) := Ok (a : A) | Fail (e : Err).
Arguments Ok {A} a.
Arguments Fail {A} e.

Definition M (A : Type) := World -> Result A * World.

Definition ret {A} (a : A) : M A := fun w => (Ok a, w).
Definition fail {A} (e : Err) : M A := fun w => (Fail e, w).
Definition bind {A B} (m : M A) (k : A -> M B) : M B :=
  fun w => match m w with
           | (Ok a, w') => k a w'
           | (Fail e, w') => (Fail e, w')
           end.

Notation "x <- m ;; k" := (bind m (fun x => k))
  (at level 61, m at next level, right associativity).

(** *** Primitive interactions *)

Definition emit (e : Event) : M unit := fun w => (Ok tt, log_ev w e).

(** An interaction whose error the caller inspects: answers whether it failed. *)
Definition interact (e : Event) : M bool := fun w => (Ok (w_fails w e), log_ev w e).

(** [transaction.Add] inside the controller, lifted into the monad. *)
Definition addT (t : tx) (op : KVOp) : M tx :=
  match add_op t op with
  | inl e => fail (ErrTxn e)
  | inr t' => ret t'
  end.

(** [txner.Txn(ops)]: the store answers, and applies the operations when the
    transaction goes through. *)
Definition store_txn (ops : list KVOp) : M CallResult :=
  fun w =>
    let r := w_txner w (txn_count (w_log w)) ops in
    let w' := log_ev w (EvTxn ops) in
    (Ok r, match r with CallOK => fold_left apply_op ops w' | _ => w' end).

(** Modelled from the spec: [transaction.Commit(ctx, txner)] returns [ok]; an
    empty buffer succeeds without contacting the store; a transport error is
    an error. *)
Definition commit (t : tx) : M bool :=
  if committed t then fail (ErrTxn ErrAlreadyCommitted) else
  match kvOps t with
  | [] => ret true
  | ops => r <- store_txn ops ;;
           match r with
           | CallOK => ret true
           | CallRollback => ret false
           | CallTransport => fail ErrTransport
           end
  end.

(** The [switch { case err != nil ...; case !ok ... }] after every commit. *)
Definition okOrRollback (ok : bool) : M unit :=
  if ok then ret tt else fail ErrRollback.

(** [labeler.GetMatches] on the selector [replication_controller_id = rcid]. *)
Definition CurrentPods (rcid : string) : M (list PodKey) :=
  fun w =>
    let w' := log_ev w EvGetMatches in
    if w_fails w EvGetMatches then (Fail ErrRead, w') else
    (Ok (map fst (filter (fun e => match map_get (snd e) RCIDLabel with
                                   | Some v => String.eqb v rcid
                                   | None => false
                                   end) (w_labels w))), w').

(** [scheduler.EligibleNodes] *)
Definition eligibleNodes : M (list NodeName) :=
  fun w =>
    let w' := log_ev w EvEligibleNodes in
    if w_fails w EvEligibleNodes then (Fail ErrRead, w') else (Ok (w_eligible w), w').

(** [consulStore.Pod(INTENT_TREE, node, pod)]; a missing record
    ([pods.NoCurrentManifest]) is [None]. *)
Definition podIntent (node : NodeName) (pod : PodID) : M (option Manifest) :=
  fun w =>
    let w' := log_ev w (EvPodRead node pod) in
    if w_fails w (EvPodRead node pod) then (Fail ErrRead, w')
    else (Ok (kv_get (w_intent w) (node, pod)), w').

(** [rcStatusStore.Get]; a missing status is the zero status. *)
Definition statusGet : M (option NodeTransfer) :=
  fun w =>
    let w' := log_ev w EvStatusGet in
    if w_fails w EvStatusGet then (Fail ErrRead, w') else (Ok (w_status w), w').

(** [scheduler.AllocateNodes] *)
Definition allocateNodes (count : nat) : M (option (list NodeName)) :=
  fun w =>
    let w' := log_ev w (EvAllocate count) in
    if w_fails w (EvAllocate count) then (Ok None, w') else (Ok (Some (w_alloc w)), w').

(** [alerter.Alert]: answers whether sending the alert failed. *)
Definition alert (msg : string) : M bool := interact (EvAlert msg).

(* ------------------------------------------------------------------------- *)
(** ** Node sets (package types)

    [types.NodeSet] is not part of [src/].  Modelled from the spec: a set of
    node names; [ListNodes] lists it sorted by hostname (the spec and the
    comment in [addPods]: "Move nodes in sorted order by hostname"); [PopAny]
    removes some element, the one at position [pick s] (Go map order is not
    specified, so the choice is left open). *)

Fixpoint mem (n : NodeName) (l : list NodeName) : bool :=
  match l with
  | [] => false
  | m :: l' => String.eqb n m || mem n l'
  end.

Definition NewNodeSet (l : list NodeName) : list NodeName :=
  fold_left (fun acc n => if mem n acc then acc else acc ++ [n]) l [].

Definition Difference (a b : list NodeName) : list NodeName :=
  filter (fun n => negb (mem n b)) a.

Fixpoint insert (x : NodeName) (l : list NodeName) : list NodeName :=
  match l with
  | [] => [x]
  | y :: l' => if String.leb x y then x :: l else y :: insert x l'
  end.

Definition ListNodes (s : list NodeName) : list NodeName := fold_right insert [] s.

Section Controller.

(** [manifest.SHA()]: the hex SHA-1 of the serialised manifest, or an error. *)
Variable SHA : Manifest -> option string.
(** Which element [PopAny] removes. *)
Variable pick : list NodeName -> nat.

Definition PopAny (s : list NodeName) : option (NodeName * list NodeName) :=
  match s with
  | [] => None
  | x :: _ => let k := pick s mod length s in
              Some (nth k s x, firstn k s ++ skipn (S k) s)
  end.

(** *** Auditing transaction

    [newAuditingTransaction] is not part of [src/].  Modelled from the spec
    (section 4.B): a transaction plus the node set that will exist after it
    commits; its commit appends one audit-log operation and commits. *)
Record AuditingTxn := mkAuditingTxn {
  at_tx : tx; at_before : list NodeName; at_nodes : list NodeName }.

Definition newAuditingTransaction (nodes : list NodeName) : AuditingTxn :=
  mkAuditingTxn emptyTx (NewNodeSet nodes) (NewNodeSet nodes).

Definition AddNode (a : AuditingTxn) (n : NodeName) : AuditingTxn :=
  mkAuditingTxn (at_tx a) (at_before a)
                (if mem n (at_nodes a) then at_nodes a else at_nodes a ++ [n]).

Definition RemoveNode (a : AuditingTxn) (n : NodeName) : AuditingTxn :=
  mkAuditingTxn (at_tx a) (at_before a) (filter (fun m => negb (String.eqb m n)) (at_nodes a)).

Definition withTx (a : AuditingTxn) (t : tx) : AuditingTxn :=
  mkAuditingTxn t (at_before a) (at_nodes a).

Definition auditCommit (rcid : string) (a : AuditingTxn) : M bool :=
  t <- addT (at_tx a) (OpAudit rcid (ListNodes (at_before a)) (ListNodes (at_nodes a))) ;;
  commit t.

(** *** Scheduling primitives *)

(** [computePodLabels]: the user labels, then the reserved ones. *)
Definition computePodLabels (rc : RC) : Labels :=
  let ret0 := PodLabels rc in
  let ret1 := map_set ret0 PodIDLabel (man_id (RC_Manifest rc)) in
  map_set ret1 RCIDLabel (ID rc).

(** [scheduleNoAudit(ctx, node)]: a label write and an intent write. *)
Definition scheduleNoAudit (rc : RC) (t : tx) (node : NodeName) : M tx :=
  _ <- emit (EvScheduling node) ;;
  let manifest := RC_Manifest rc in
  t1 <- addT t (OpSetLabels node (man_id manifest) (computePodLabels rc)) ;;
  addT t1 (OpSetIntent node manifest).

(** [schedule(txn, node)] *)
Definition schedule (rc : RC) (a : AuditingTxn) (node : NodeName) : M AuditingTxn :=
  t <- scheduleNoAudit rc (at_tx a) node ;;
  ret (AddNode (withTx a t) node).

(** [unschedule(txn, node)]: an intent delete and a label removal. *)
Definition unschedule (rc : RC) (a : AuditingTxn) (node : NodeName) : M AuditingTxn :=
  _ <- emit (EvUnscheduling node) ;;
  let manifest := RC_Manifest rc in
  t1 <- addT (at_tx a) (OpDeletePodIntent node (man_id manifest)) ;;
  let keysToRemove := map fst (computePodLabels rc) in
  t2 <- addT t1 (OpRemoveLabels node (man_id manifest) keysToRemove) ;;
  ret (RemoveNode (withTx a t2) node).

(** The batching test [i%5 == 0 && i > 0]. *)
Definition batchBoundary (i : nat) : bool := Nat.eqb (i mod 5) 0 && Nat.ltb 0 i.

(** *** addPods *)

Definition notEnoughNodesMsg := "Not enough nodes to meet desire".

Definition addPodsCandidates (current : list PodKey) (eligible : list NodeName) : list NodeName :=
  ListNodes (Difference (NewNodeSet eligible) (NewNodeSet (map fst current))).

(** The [for i := 0; i < toSchedule; i++] loop; [fuel] is the number of
    iterations left, the final commit follows the loop. *)
Fixpoint addPods_loop (rc : RC) (possibleSorted : list NodeName)
         (fuel i : nat) (txn : AuditingTxn) : M unit :=
  match fuel with
  | 0 => ok <- auditCommit (ID rc) txn ;; okOrRollback ok
  | S fuel' =>
      txn1 <- (if batchBoundary i then
                 ok <- auditCommit (ID rc) txn ;;
                 _ <- okOrRollback ok ;;
                 ret (newAuditingTransaction (at_nodes txn))
               else ret txn) ;;
      match nth_error possibleSorted i with
      | None =>
          _ <- alert notEnoughNodesMsg ;;
          ok <- auditCommit (ID rc) txn1 ;;
          _ <- okOrRollback ok ;;
          fail (ErrMsg notEnoughNodesMsg)
      | Some scheduleOn =>
          txn2 <- schedule rc txn1 scheduleOn ;;
          addPods_loop rc possibleSorted fuel' (S i) txn2
      end
  end.

Definition addPods (rc : RC) (current : list PodKey) (eligible : list NodeName) : M unit :=
  let currentNodes := map fst current in
  let possibleSorted := addPodsCandidates current eligible in
  let toSchedule := (ReplicasDesired rc - Z.of_nat (length currentNodes))%Z in
  addPods_loop rc possibleSorted (Z.to_nat toSchedule) 0
               (newAuditingTransaction currentNodes).

(** *** removePods *)

Definition unscheduleEnoughMsg := "Unable to unschedule enough nodes to meet replicas desired".

Fixpoint removePods_loop (rc : RC) (fuel i : nat) (preferred rest : list NodeName)
         (txn : AuditingTxn) : M unit :=
  match fuel with
  | 0 => ok <- auditCommit (ID rc) txn ;; okOrRollback ok
  | S fuel' =>
      txn1 <- (if batchBoundary i then
                 ok <- auditCommit (ID rc) txn ;;
                 _ <- okOrRollback ok ;;
                 ret (newAuditingTransaction (at_nodes txn))
               else ret txn) ;;
      match PopAny preferred with
      | Some (unscheduleFrom, preferred') =>
          txn2 <- unschedule rc txn1 unscheduleFrom ;;
          removePods_loop rc fuel' (S i) preferred' rest txn2
      | None =>
          match PopAny rest with
          | Some (unscheduleFrom, rest') =>
              txn2 <- unschedule rc txn1 unscheduleFrom ;;
              removePods_loop rc fuel' (S i) preferred rest' txn2
          | None =>
              ok <- auditCommit (ID rc) txn1 ;;
              _ <- okOrRollback ok ;;
              fail (ErrMsg unscheduleEnoughMsg)
          end
      end
  end.

Definition removePods (rc : RC) (current : list PodKey) (eligible : list NodeName) : M unit :=
  let currentNodes := map fst current in
  let preferred := Difference (NewNodeSet currentNodes) (NewNodeSet eligible) in
  let rest := Difference (NewNodeSet currentNodes) preferred in
  let toUnschedule := (Z.of_nat (length current) - ReplicasDesired rc)%Z in
  removePods_loop rc (Z.to_nat toUnschedule) 0 preferred rest
                  (newAuditingTransaction currentNodes).

(** *** ensureConsistency *)

(** [intentSHA, err = intent.SHA()]: on an error the hash is the empty string
    (the error is only logged). *)
Definition intentSHAOf (intent : Manifest) : string :=
  match SHA intent with Some s => s | None => "" end.

(** Whether the stored intent is left alone ([continue] in the loop). *)
Definition intentConsistent (manifestSHA : string) (intent : option Manifest) : bool :=
  match intent with
  | Some im => String.eqb (intentSHAOf im) manifestSHA
  | None => false
  end.

Fixpoint ensureConsistency_loop (rc : RC) (manifestSHA : string)
         (pods : list PodKey) (i : nat) (t : tx) : M unit :=
  match pods with
  | [] => ok <- commit t ;; okOrRollback ok
  | pod :: pods' =>
      t1 <- (if batchBoundary i then
               ok <- commit t ;;
               _ <- okOrRollback ok ;;
               ret emptyTx
             else ret t) ;;
      intent <- podIntent (fst pod) (snd pod) ;;
      if intentConsistent manifestSHA intent
      then ensureConsistency_loop rc manifestSHA pods' (S i) t1
      else t2 <- scheduleNoAudit rc t1 (fst pod) ;;
           ensureConsistency_loop rc manifestSHA pods' (S i) t2
  end.

Definition ensureConsistency (rc : RC) (current : list PodKey) : M unit :=
  match SHA (RC_Manifest rc) with
  | None => fail ErrHash
  | Some manifestSHA => ensureConsistency_loop rc manifestSHA current 0 emptyTx
  end.

(** *** Node transfer

    The transfer functions of the source do not compile as written (unbound
    [ineligibleNodes], [ineligibleCurrent], [status], [txn], [scheduleOn],
    [ctx], [node], [oldNode]; a missing final [return] in [transferNodes];
    [nil] returned as a [NodeName]).  They are modelled with the evident
    bindings: the parameter [ineligible], the RC's status, the local write
    context, [newNode], a trailing [return nil], and [""] for the zero
    [NodeName]. *)

Definition checkForIneligible (current : list PodKey) (eligible : list NodeName) : list NodeName :=
  map fst (filter (fun p => negb (mem (fst p) eligible)) current).

Definition isNodeTransferInProgress : M bool :=
  status <- statusGet ;;
  ret (match status with Some _ => true | None => false end).

Definition allocFailedMsg := "Unable to allocate nodes over grpc".
Definition nonCattleMsg := "Non-cattle RC has scheduled ineligible nodes".

(** [transaction.MustCommit] *)
Definition mustCommit (t : tx) : M unit := ok <- commit t ;; okOrRollback ok.

Definition updateAllocations (rc : RC) (ineligible : list NodeName) : M NodeName :=
  match ineligible with
  | [] => fail (ErrMsg "Need at least one ineligible node to transfer from, had 0")
  | oldNode :: _ =>
      deallocErr <- interact (EvDeallocate [oldNode]) ;;
      if deallocErr then fail (ErrMsg "Could not deallocate") else
      newNodes <- allocateNodes 1 ;;
      match newNodes with
      | Some (newNode :: _) =>
          t <- addT emptyTx (OpCASStatus 0 (Some (mkNodeTransfer oldNode newNode))) ;;
          _ <- mustCommit t ;;
          ret newNode
      | _ =>
          _ <- alert allocFailedMsg ;;
          fail (ErrMsg allocFailedMsg)
      end
  end.

Definition scheduleWithoutLabel (rc : RC) (newNode : NodeName) : M unit :=
  _ <- emit (EvScheduling newNode) ;;
  t <- addT emptyTx (OpSetIntent newNode (RC_Manifest rc)) ;;
  ok <- commit t ;;
  okOrRollback ok.

(** For a non-cattle RC the source returns the error of [alerter.Alert]. *)
Definition updateAllocationsAndReschedule (rc : RC) (ineligible : list NodeName) : M NodeName :=
  match AllocationStrategy rc with
  | CattleStrategy =>
      newNode <- updateAllocations rc ineligible ;;
      _ <- scheduleWithoutLabel rc newNode ;;
      ret newNode
  | _ =>
      alertErr <- alert nonCattleMsg ;;
      if alertErr then fail ErrAlert else ret ""
  end.

Definition transferNodes (rc : RC) (ineligible : list NodeName) : M unit :=
  inProg <- isNodeTransferInProgress ;;
  if inProg then ret tt else
  _ <- updateAllocationsAndReschedule rc ineligible ;;
  ret tt.

(** [finalizeCompleteTransfer]: label the new node, unschedule the old one,
    in one audited transaction. *)
Definition finalizeCompleteTransfer (rc : RC) (oldNode newNode : NodeName) : M unit :=
  current <- CurrentPods (ID rc) ;;
  let txn := AddNode (newAuditingTransaction (map fst current)) newNode in
  let manifest := RC_Manifest rc in
  t <- addT (at_tx txn) (OpSetLabels newNode (man_id manifest) (computePodLabels rc)) ;;
  txn2 <- unschedule rc (withTx txn t) oldNode ;;
  ok <- auditCommit (ID rc) txn2 ;;
  okOrRollback ok.

(** *** meetDesires *)

Definition meetDesires (rc : RC) : M unit :=
  if Disabled rc then ret tt else
  current <- CurrentPods (ID rc) ;;
  eligible <- eligibleNodes ;;
  nodesChanged <-
    (if Z.ltb (Z.of_nat (length current)) (ReplicasDesired rc) then
       _ <- addPods rc current eligible ;; ret true
     else if Z.ltb (ReplicasDesired rc) (Z.of_nat (length current)) then
       _ <- removePods rc current eligible ;; ret true
     else ret false) ;;
  current' <- (if nodesChanged then CurrentPods (ID rc) else ret current) ;;
  let ineligible := checkForIneligible current' eligible in
  _ <- (match ineligible with
        | [] => ret tt
        | _ => transferNodes rc ineligible
        end) ;;
  ensureConsistency rc current'.

End Controller.

(* ========================================================================= *)
(** * Properties *)

(* ------------------------------------------------------------------------- *)
(** ** Transaction buffer *)

Module TransactionFacts.

Lemma upd_length : forall h r t, length (upd h r t) = length h.
Proof. induction h as [|x h IH]; intros [|r] t; simpl; auto. Qed.

Lemma nth_error_upd_same : forall h r t,
  r < length h -> nth_error (upd h r t) r = Some t.
Proof.
  induction h as [|x h IH]; intros [|r] t Hr; simpl in *; try lia; auto.
  all: try (apply IH; lia).
Qed.

Lemma nth_error_upd_other : forall h r r' t,
  r <> r' -> nth_error (upd h r t) r' = nth_error h r'.
Proof.
  induction h as [|x h IH]; intros [|r] [|r'] t Hr; simpl; auto; try lia.
  all: try (apply IH; lia).
Qed.

Lemma nth_error_snoc : forall (h : Heap) t, nth_error (h ++ [t]) (length h) = Some t.
Proof. intros. rewrite nth_error_app2 by lia. rewrite Nat.sub_diag. reflexivity. Qed.

Lemma nth_error_snoc_lt : forall (h : Heap) t r,
  r < length h -> nth_error (h ++ [t]) r = nth_error h r.
Proof. intros. apply nth_error_app1; lia. Qed.

(** [Add] through a context that refers to [r]: the buffer at [r] grows by the
    operation and nothing else changes. *)
Lemma Add_spec : forall h r op h',
  Add h (mkCtx (Some r)) op = inr h' ->
  exists t, nth_error h r = Some t /\ committed t = false /\
            length (kvOps t) < maxOps /\
            h' = upd h r (mkTx (kvOps t ++ [op]) false).
Proof.
  intros h r op h' H. unfold Add in H. cbn [ctx_txn] in H.
  destruct (nth_error h r) as [t|] eqn:Ht; [|discriminate].
  unfold add_op in H.
  destruct (committed t) eqn:Hc; [discriminate|].
  destruct (Nat.leb maxOps (length (kvOps t))) eqn:Hl; [discriminate|].
  apply Nat.leb_gt in Hl. injection H as <-. eauto.
Qed.

(** Adding a list of operations that fits in the buffer succeeds. *)
Lemma AddAll_fits : forall ops h r t,
  nth_error h r = Some t -> committed t = false ->
  length (kvOps t) + length ops <= maxOps ->
  exists h', AddAll h (mkCtx (Some r)) ops = inr h' /\
             nth_error h' r = Some (mkTx (kvOps t ++ ops) false) /\
             length h' = length h.
Proof.
  induction ops as [|op ops IH]; intros h r t Ht Hc Hlen.
  - exists h. simpl. rewrite app_nil_r. destruct t; simpl in *; subst; auto.
  - simpl. unfold Add at 1; simpl. rewrite Ht. unfold add_op. rewrite Hc.
    simpl in Hlen.
    destruct (Nat.leb maxOps (length (kvOps t))) eqn:Hl.
    + apply Nat.leb_le in Hl. lia.
    + assert (Hr : r < length h) by (apply nth_error_Some; congruence).
      destruct (IH (upd h r (mkTx (kvOps t ++ [op]) false)) r
                   (mkTx (kvOps t ++ [op]) false)) as [h' [H1 [H2 H3]]].
      * apply nth_error_upd_same; auto.
      * reflexivity.
      * simpl. rewrite length_app. simpl. lia.
      * exists h'. split; [exact H1|]. split.
        -- rewrite H2. simpl. rewrite <- app_assoc. reflexivity.
        -- rewrite H3, upd_length. reflexivity.
Qed.

End TransactionFacts.

Import TransactionFacts.

(** C6: starting from a freshly created, empty transaction, the first 64
    calls to [Add] succeed and the 65th fails with [ErrTooManyOperations]. *)
Theorem Add_64_then_TooManyOperations :
  forall (h : Heap) (ops : list KVOp) (op : KVOp),
  length ops = 64 ->
  let (h1, c) := New h Background in
  exists h2, AddAll h1 c ops = inr h2 /\ Add h2 c op = inl ErrTooManyOperations.
Proof.
  intros h ops op Hlen. unfold New. simpl.
  destruct (AddAll_fits ops (h ++ [mkTx [] false]) (length h) (mkTx [] false))
    as [h2 [H1 [H2 _]]].
  - apply nth_error_snoc.
  - reflexivity.
  - simpl. unfold maxOps. lia.
  - exists h2. split; [exact H1|].
    unfold Add; simpl. rewrite H2. unfold add_op. simpl. rewrite Hlen. reflexivity.
Qed.

Lemma Add_64_then_TooManyOperations_witness :
  length (repeat OpEmpty 64) = 64 /\
  (let (h1, c) := New [] Background in
   exists h2, AddAll h1 c (repeat OpEmpty 64) = inr h2 /\
              Add h2 c OpEmpty = inl ErrTooManyOperations).
Proof.
  split; [reflexivity|].
  exact (Add_64_then_TooManyOperations [] (repeat OpEmpty 64) OpEmpty eq_refl).
Defined.

(** C1 (counterexample): the scenario of [TestContextInheritsOperations].  A
    parent holding one operation is derived from, and one operation is added
    through the child: the child observes two operations, the parent still
    one, so the two observations are not equal. *)
Lemma derived_context_counts_diverge :
  let (h1, c1) := New [] Background in
  match Add h1 c1 OpEmpty with
  | inr h2 =>
      let (h3, c2) := New h2 c1 in
      match Add h3 c2 OpEmpty with
      | inr h4 => opCount h4 c1 = Some 1 /\ opCount h4 c2 = Some 2
      | inl _ => False
      end
  | inl _ => False
  end.
Proof. vm_compute. split; reflexivity. Qed.

(** C1 (as the code behaves): a context derived from a parent whose
    transaction holds the operations [ops] starts with a copy of exactly
    those operations, in order; afterwards an [Add] through one of the two
    contexts appends the operation to that context's buffer only, the other
    one keeps observing [ops] (and so its count stays [length ops]). *)
Theorem derived_context_copies_parent_ops :
  forall (h : Heap) (parent : Ctx) (ops : list KVOp),
  ctxOps h parent = Some ops ->
  let (h', child) := New h parent in
  ctxOps h' child = Some ops /\ ctxOps h' parent = Some ops /\
  (forall op h'', Add h' child op = inr h'' ->
     ctxOps h'' child = Some (ops ++ [op]) /\ ctxOps h'' parent = Some ops) /\
  (forall op h'', Add h' parent op = inr h'' ->
     ctxOps h'' parent = Some (ops ++ [op]) /\ ctxOps h'' child = Some ops).
Proof.
  intros h [[r|]] ops Hk; unfold ctxOps, getTxnFromContext in Hk; simpl in Hk;
    [|discriminate].
  destruct (nth_error h r) as [t|] eqn:Ht; [|discriminate].
  injection Hk as Hk.
  assert (Hr : r < length h) by (apply nth_error_Some; congruence).
  unfold New, getTxnFromContext; simpl. rewrite Ht.
  assert (Hne : r <> length h) by lia.
  unfold ctxOps, getTxnFromContext; simpl.
  rewrite nth_error_snoc, nth_error_snoc_lt by assumption. rewrite Ht.
  split; [simpl; congruence|]. split; [congruence|]. split.
  - intros op h'' HA. apply Add_spec in HA as [t' [Ht' [_ [_ ->]]]].
    rewrite nth_error_snoc in Ht'. injection Ht' as <-.
    rewrite nth_error_upd_same by (rewrite length_app; simpl; lia).
    rewrite nth_error_upd_other by lia.
    rewrite nth_error_snoc_lt by assumption. rewrite Ht.
    simpl. split; congruence.
  - intros op h'' HA. apply Add_spec in HA as [t' [Ht' [_ [_ ->]]]].
    rewrite nth_error_snoc_lt in Ht' by assumption. rewrite Ht in Ht'.
    injection Ht' as <-.
    rewrite nth_error_upd_same by (rewrite length_app; simpl; lia).
    rewrite nth_error_upd_other by lia. rewrite nth_error_snoc.
    simpl. split; congruence.
Qed.

Lemma derived_context_copies_parent_ops_witness :
  ctxOps [mkTx [OpEmpty] false] (mkCtx (Some 0)) = Some [OpEmpty] /\
  (let (h', child) := New [mkTx [OpEmpty] false] (mkCtx (Some 0)) in
   ctxOps h' child = Some [OpEmpty] /\ ctxOps h' (mkCtx (Some 0)) = Some [OpEmpty] /\
   (forall op h'', Add h' child op = inr h'' ->
      ctxOps h'' child = Some ([OpEmpty] ++ [op]) /\
      ctxOps h'' (mkCtx (Some 0)) = Some [OpEmpty]) /\
   (forall op h'', Add h' (mkCtx (Some 0)) op = inr h'' ->
      ctxOps h'' (mkCtx (Some 0)) = Some ([OpEmpty] ++ [op]) /\
      ctxOps h'' child = Some [OpEmpty])).
Proof.
  split; [reflexivity|].
  exact (derived_context_copies_parent_ops [mkTx [OpEmpty] false] (mkCtx (Some 0))
           [OpEmpty] eq_refl).
Defined.

(* ------------------------------------------------------------------------- *)
(** ** CommitWithRetries *)

Module RetryFacts.

Section Env.
Variable resp : nat -> CallResult.
Variable cancelled : nat -> bool.

(** Every finished run of the loop started at call [i0]. *)
Lemma retry_loop_finished : forall fuel i0 n ok err,
  retry_loop resp cancelled fuel i0 = Some (n, ok, err) ->
  S i0 <= n /\
  (forall i, i0 <= i -> i < n -> resp i = CallOK -> S i = n /\ ok = true /\ err = false) /\
  (forall i, i0 <= i -> i < n -> resp i = CallRollback -> S i = n /\ ok = false /\ err = false) /\
  (forall i, i0 <= i -> S i < n -> resp i = CallTransport).
Proof.
  induction fuel as [|fuel IH]; intros i0 n ok err H; simpl in H; [discriminate|].
  destruct (resp i0) eqn:Hr.
  - injection H as <- <- <-.
    repeat split; intros; try lia;
      assert (i = i0) by lia; subst; congruence.
  - injection H as <- <- <-.
    repeat split; intros; try lia;
      assert (i = i0) by lia; subst; congruence.
  - destruct (cancelled i0) eqn:Hc.
    + injection H as <- <- <-.
      repeat split; intros; try lia;
        assert (i = i0) by lia; subst; congruence.
    + destruct (IH (S i0) n ok err H) as [H1 [H2 [H3 H4]]].
      split; [lia|]. split; [|split].
      * intros i Hi Hn Hi'. destruct (Nat.eq_dec i i0); [subst; congruence|].
        apply H2; auto; lia.
      * intros i Hi Hn Hi'. destruct (Nat.eq_dec i i0); [subst; congruence|].
        apply H3; auto; lia.
      * intros i Hi Hn. destruct (Nat.eq_dec i i0); [subst; auto|].
        apply H4; lia.
Qed.

(** Once the context is seen cancelled after call [i], the loop has stopped
    by call [i]; if it was still retrying, it stops with ok=false and an
    error. *)
Lemma retry_loop_cancelled : forall fuel i0 i,
  i0 <= i -> cancelled i = true -> i - i0 < fuel ->
  exists n ok err, retry_loop resp cancelled fuel i0 = Some (n, ok, err) /\
    n <= S i /\
    ((forall j, i0 <= j -> j <= i -> resp j = CallTransport) ->
     ok = false /\ err = true).
Proof.
  induction fuel as [|fuel IH]; intros i0 i Hi Hc Hf; [lia|].
  simpl. destruct (resp i0) eqn:Hr.
  - exists (S i0), true, false. repeat split; try lia;
      match goal with H : forall j, _ |- _ => specialize (H i0 ltac:(lia) ltac:(lia)) end;
      congruence.
  - exists (S i0), false, false. repeat split; try lia;
      match goal with H : forall j, _ |- _ => specialize (H i0 ltac:(lia) ltac:(lia)) end;
      congruence.
  - destruct (cancelled i0) eqn:Hc0.
    + exists (S i0), false, true. repeat split; lia.
    + destruct (Nat.eq_dec i0 i) as [->|Hne]; [congruence|].
      destruct (IH (S i0) i ltac:(lia) Hc ltac:(lia)) as [n [ok [err [H1 [H2 H3]]]]].
      exists n, ok, err. split; [exact H1|]. split; [exact H2|].
      intros Hall. apply H3. intros j Hj1 Hj2. apply Hall; lia.
Qed.

End Env.
End RetryFacts.

(** C5: [CommitWithRetries] calls the store at least once; no call follows a
    call that succeeded or rolled back (and that call's answer is returned);
    a call is retried only after a transport error; and once the context is
    seen cancelled after call [i], the loop returns by call [i] at the
    latest, with ok=false and an error when it was still retrying. *)
Theorem CommitWithRetries_contract :
  forall (resp : nat -> CallResult) (cancelled : nat -> bool),
  (forall fuel n ok err,
     CommitWithRetries resp cancelled fuel = Some (n, ok, err) ->
     1 <= n /\
     (forall i, i < n -> resp i = CallOK -> S i = n /\ ok = true /\ err = false) /\
     (forall i, i < n -> resp i = CallRollback -> S i = n /\ ok = false /\ err = false) /\
     (forall i, S i < n -> resp i = CallTransport)) /\
  (forall i, cancelled i = true -> forall fuel, i < fuel ->
     exists n ok err, CommitWithRetries resp cancelled fuel = Some (n, ok, err) /\
       n <= S i /\
       ((forall j, j <= i -> resp j = CallTransport) -> ok = false /\ err = true)).
Proof.
  intros resp cancelled. split.
  - intros fuel n ok err H. unfold CommitWithRetries in H.
    destruct (RetryFacts.retry_loop_finished resp cancelled fuel 0 n ok err H)
      as [H1 [H2 [H3 H4]]].
    split; [lia|]. split; [|split].
    + intros i Hi. apply H2; lia.
    + intros i Hi. apply H3; lia.
    + intros i Hi. apply H4; lia.
  - intros i Hc fuel Hf. unfold CommitWithRetries.
    destruct (RetryFacts.retry_loop_cancelled resp cancelled fuel 0 i ltac:(lia) Hc ltac:(lia))
      as [n [ok [err [H1 [H2 H3]]]]].
    exists n, ok, err. split; [exact H1|]. split; [exact H2|].
    intros Hall. apply H3. intros j _ Hj. apply Hall; exact Hj.
Qed.

(* ------------------------------------------------------------------------- *)
(** ** Go maps and the log *)

Lemma map_get_set_same : forall m k v, map_get (map_set m k v) k = Some v.
Proof.
  induction m as [|[k' v'] m IH]; intros k v; simpl.
  - rewrite String.eqb_refl. reflexivity.
  - destruct (String.eqb k k') eqn:E; simpl.
    + rewrite E. reflexivity.
    + rewrite E. apply IH.
Qed.

Lemma map_get_set_other : forall m k k' v,
  k' <> k -> map_get (map_set m k v) k' = map_get m k'.
Proof.
  induction m as [|[k0 v0] m IH]; intros k k' v Hne; simpl.
  - apply String.eqb_neq in Hne. rewrite Hne. reflexivity.
  - destruct (String.eqb k k0) eqn:E; simpl.
    + apply String.eqb_eq in E. subst.
      apply String.eqb_neq in Hne. rewrite Hne. reflexivity.
    + destruct (String.eqb k' k0); [reflexivity|]. apply IH; exact Hne.
Qed.

Lemma apply_op_log : forall w op, w_log (apply_op w op) = w_log w.
Proof. intros w []; reflexivity. Qed.

Lemma fold_apply_log : forall ops w, w_log (fold_left apply_op ops w) = w_log w.
Proof.
  induction ops as [|op ops IH]; intros w; simpl; [reflexivity|].
  rewrite IH. apply apply_op_log.
Qed.

(** The label maps written by the transactions sent to the store. *)
Definition label_maps_of_ops (ops : list KVOp) : list Labels :=
  flat_map (fun op => match op with OpSetLabels _ _ ls => [ls] | _ => [] end) ops.

Definition label_maps_written (evs : list Event) : list Labels :=
  flat_map (fun e => match e with EvTxn ops => label_maps_of_ops ops | _ => [] end) evs.

(* ------------------------------------------------------------------------- *)
(** ** A Hoare-style judgement on the log

    [HExt P m Q]: running [m] only appends events satisfying [P] to the log,
    leaves the failure oracle and the store's answers unchanged, and a
    successful result satisfies [Q]. *)

Definition oracles_same (w w' : World) : Prop :=
  w_fails w' = w_fails w /\ w_txner w' = w_txner w.

Definition HExt {A} (P : Event -> Prop) (m : M A) (Q : A -> Prop) : Prop :=
  forall w, exists evs, w_log (snd (m w)) = w_log w ++ evs /\ Forall P evs /\
    oracles_same w (snd (m w)) /\
    match fst (m w) with Ok a => Q a | Fail _ => True end.

Create HintDb hext.

Lemma HExt_ret : forall A P (a : A) (Q : A -> Prop), Q a -> HExt P (ret a) Q.
Proof.
  intros A P a Q Ha w. exists []. rewrite app_nil_r.
  repeat split; auto.
Qed.

Lemma HExt_fail : forall A P e (Q : A -> Prop), HExt P (fail e) Q.
Proof.
  intros A P e Q w. exists []. rewrite app_nil_r. repeat split; auto.
Qed.

Lemma HExt_bind : forall A B P (m : M A) (k : A -> M B) Q1 Q2,
  HExt P m Q1 -> (forall a, Q1 a -> HExt P (k a) Q2) -> HExt P (bind m k) Q2.
Proof.
  intros A B P m k Q1 Q2 Hm Hk w. unfold bind.
  destruct (Hm w) as [evs1 [L1 [F1 [[O1 O1'] R1]]]].
  destruct (m w) as [[a|e] w1] eqn:E; simpl in *.
  - destruct (Hk a R1 w1) as [evs2 [L2 [F2 [[O2 O2'] R2]]]].
    exists (evs1 ++ evs2). rewrite L2, L1, app_assoc.
    repeat split; auto.
    + apply Forall_app; auto.
    + congruence.
    + congruence.
  - exists evs1. repeat split; auto.
Qed.

Lemma HExt_weaken : forall A (P P' : Event -> Prop) (m : M A) (Q Q' : A -> Prop),
  HExt P m Q -> (forall e, P e -> P' e) -> (forall a, Q a -> Q' a) -> HExt P' m Q'.
Proof.
  intros A P P' m Q Q' H HP HQ w.
  destruct (H w) as [evs [L [F [O R]]]]. exists evs.
  repeat split; try apply O; auto.
  - eapply Forall_impl; eauto.
  - destruct (fst (m w)); auto.
Qed.

Lemma HExt_if : forall A P (b : bool) (m1 m2 : M A) Q,
  HExt P m1 Q -> HExt P m2 Q -> HExt P (if b then m1 else m2) Q.
Proof. intros; destruct b; auto. Qed.

Lemma HExt_emit : forall (P : Event -> Prop) e, P e -> HExt P (emit e) (fun _ => True).
Proof.
  intros P e He w. exists [e]. simpl. repeat split; auto.
Qed.

Lemma HExt_interact : forall (P : Event -> Prop) e, P e -> HExt P (interact e) (fun _ => True).
Proof.
  intros P e He w. exists [e]. simpl. repeat split; auto.
Qed.

Lemma HExt_addT : forall P t op,
  HExt P (addT t op) (fun t' => kvOps t' = kvOps t ++ [op] /\ committed t' = false).
Proof.
  intros P t op w. unfold addT, add_op.
  destruct (committed t); [apply HExt_fail|].
  destruct (Nat.leb maxOps (length (kvOps t))); [apply HExt_fail|].
  apply HExt_ret. simpl. auto.
Qed.

Lemma apply_op_oracles : forall w op, oracles_same w (apply_op w op).
Proof. intros w []; split; reflexivity. Qed.

Lemma fold_apply_oracles : forall ops w, oracles_same w (fold_left apply_op ops w).
Proof.
  induction ops as [|op ops IH]; intros w; simpl; [split; reflexivity|].
  destruct (IH (apply_op w op)) as [H1 H2].
  destruct (apply_op_oracles w op) as [H3 H4]. split; congruence.
Qed.

Lemma HExt_store_txn : forall (P : Event -> Prop) ops,
  P (EvTxn ops) -> HExt P (store_txn ops) (fun _ => True).
Proof.
  intros P ops Hp w. exists [EvTxn ops]. unfold store_txn; simpl.
  destruct (w_txner w (txn_count (w_log w)) ops); simpl;
    try rewrite fold_apply_log; repeat split; auto;
    try apply (fold_apply_oracles ops (log_ev w (EvTxn ops))).
Qed.

Lemma HExt_commit : forall (P : Event -> Prop) t,
  P (EvTxn (kvOps t)) -> HExt P (commit t) (fun _ => True).
Proof.
  intros P t Hp. unfold commit.
  destruct (committed t); [apply HExt_fail|].
  destruct (kvOps t) as [|op ops] eqn:E; [apply HExt_ret; auto|].
  eapply HExt_bind; [apply HExt_store_txn; exact Hp|].
  intros [| |] _; [apply HExt_ret; auto | apply HExt_ret; auto | apply HExt_fail].
Qed.

Lemma HExt_okOrRollback : forall P ok, HExt P (okOrRollback ok) (fun _ => True).
Proof. intros P []; [apply HExt_ret; auto | apply HExt_fail]. Qed.

#[export] Hint Resolve HExt_ret HExt_fail HExt_emit HExt_interact HExt_addT
  HExt_store_txn HExt_commit HExt_okOrRollback : hext.

Lemma HExt_CurrentPods : forall (P : Event -> Prop) rcid,
  P EvGetMatches -> HExt P (CurrentPods rcid) (fun _ => True).
Proof.
  intros P rcid Hp w. exists [EvGetMatches]. unfold CurrentPods.
  destruct (w_fails w EvGetMatches); simpl; repeat split; auto.
Qed.

Lemma HExt_eligibleNodes : forall (P : Event -> Prop),
  P EvEligibleNodes -> HExt P eligibleNodes (fun _ => True).
Proof.
  intros P Hp w. exists [EvEligibleNodes]. unfold eligibleNodes.
  destruct (w_fails w EvEligibleNodes); simpl; repeat split; auto.
Qed.

Lemma HExt_podIntent : forall (P : Event -> Prop) n p,
  P (EvPodRead n p) -> HExt P (podIntent n p) (fun _ => True).
Proof.
  intros P n p Hp w. exists [EvPodRead n p]. unfold podIntent.
  destruct (w_fails w (EvPodRead n p)); simpl; repeat split; auto.
Qed.

Lemma HExt_statusGet : forall (P : Event -> Prop),
  P EvStatusGet -> HExt P statusGet (fun _ => True).
Proof.
  intros P Hp w. exists [EvStatusGet]. unfold statusGet.
  destruct (w_fails w EvStatusGet); simpl; repeat split; auto.
Qed.

Lemma HExt_allocateNodes : forall (P : Event -> Prop) c,
  P (EvAllocate c) -> HExt P (allocateNodes c) (fun _ => True).
Proof.
  intros P c Hp w. exists [EvAllocate c]. unfold allocateNodes.
  destruct (w_fails w (EvAllocate c)); simpl; repeat split; auto.
Qed.

#[export] Hint Resolve HExt_CurrentPods HExt_eligibleNodes HExt_podIntent
  HExt_statusGet HExt_allocateNodes : hext.

(** The operations [scheduleNoAudit] appends. *)
Definition schedule_ops (rc : RC) (node : NodeName) : list KVOp :=
  [OpSetLabels node (man_id (RC_Manifest rc)) (computePodLabels rc);
   OpSetIntent node (RC_Manifest rc)].

(** The operations [unschedule] appends. *)
Definition unschedule_ops (rc : RC) (node : NodeName) : list KVOp :=
  [OpDeletePodIntent node (man_id (RC_Manifest rc));
   OpRemoveLabels node (man_id (RC_Manifest rc)) (map fst (computePodLabels rc))].

Lemma HExt_scheduleNoAudit : forall (P : Event -> Prop) rc t node,
  P (EvScheduling node) ->
  HExt P (scheduleNoAudit rc t node)
       (fun t' => kvOps t' = kvOps t ++ schedule_ops rc node /\ committed t' = false).
Proof.
  intros P rc t node Hp. unfold scheduleNoAudit.
  eapply HExt_bind; [apply HExt_emit; exact Hp|]. intros _ _.
  eapply HExt_bind; [apply HExt_addT|]. intros t1 [H1 _].
  eapply HExt_weaken; [apply (HExt_addT P t1)|exact (fun e He => He)|].
  intros t2 [H2 H3]. rewrite H2, H1, <- app_assoc. auto.
Qed.

Lemma HExt_schedule : forall (P : Event -> Prop) rc a node,
  P (EvScheduling node) ->
  HExt P (schedule rc a node)
       (fun a' => kvOps (at_tx a') = kvOps (at_tx a) ++ schedule_ops rc node /\
                  committed (at_tx a') = false /\ a' = AddNode (withTx a (at_tx a')) node).
Proof.
  intros P rc a node Hp. unfold schedule.
  eapply HExt_bind; [apply HExt_scheduleNoAudit; exact Hp|].
  intros t [H1 H2]. apply HExt_ret. simpl. auto.
Qed.

Lemma HExt_unschedule : forall (P : Event -> Prop) rc a node,
  P (EvUnscheduling node) ->
  HExt P (unschedule rc a node)
       (fun a' => kvOps (at_tx a') = kvOps (at_tx a) ++ unschedule_ops rc node /\
                  committed (at_tx a') = false /\ a' = RemoveNode (withTx a (at_tx a')) node).
Proof.
  intros P rc a node Hp. unfold unschedule.
  eapply HExt_bind; [apply HExt_emit; exact Hp|]. intros _ _.
  eapply HExt_bind; [apply HExt_addT|]. intros t1 [H1 _].
  eapply HExt_bind; [apply HExt_addT|]. intros t2 [H2 H3].
  apply HExt_ret. simpl. rewrite H2, H1, <- app_assoc. auto.
Qed.

Definition audit_op (rcid : string) (a : AuditingTxn) : KVOp :=
  OpAudit rcid (ListNodes (at_before a)) (ListNodes (at_nodes a)).

Lemma HExt_auditCommit : forall (P : Event -> Prop) rcid a,
  P (EvTxn (kvOps (at_tx a) ++ [audit_op rcid a])) ->
  HExt P (auditCommit rcid a) (fun _ => True).
Proof.
  intros P rcid a Hp. unfold auditCommit.
  eapply HExt_bind; [apply HExt_addT|]. intros t [H1 _].
  apply HExt_commit. rewrite H1. exact Hp.
Qed.

(* ------------------------------------------------------------------------- *)
(** ** Pod labels *)

Definition label_ok (rc : RC) (e : Event) : Prop :=
  match e with
  | EvTxn ops => Forall (fun ls => ls = computePodLabels rc) (label_maps_of_ops ops)
  | _ => True
  end.

Lemma label_maps_of_ops_app : forall a b,
  label_maps_of_ops (a ++ b) = label_maps_of_ops a ++ label_maps_of_ops b.
Proof. intros. unfold label_maps_of_ops. apply flat_map_app. Qed.

Lemma label_maps_written_ok : forall rc evs,
  Forall (label_ok rc) evs ->
  Forall (fun ls => ls = computePodLabels rc) (label_maps_written evs).
Proof.
  intros rc evs H. induction H as [|e evs He H IH]; simpl; auto.
  apply Forall_app. split; auto. destruct e; simpl in *; auto.
Qed.

(** C10: the label map applied by every scheduling label write carries the
    reserved [pod_id] (the manifest's ID) and [replication_controller_id]
    (the RC's ID), which override user labels with the same keys; every
    other key keeps its user value.  The label writes of [scheduleNoAudit],
    [schedule] and [finalizeCompleteTransfer] all use that map. *)
Theorem scheduling_label_writes_carry_reserved_labels :
  forall rc : RC,
  map_get (computePodLabels rc) PodIDLabel = Some (man_id (RC_Manifest rc)) /\
  map_get (computePodLabels rc) RCIDLabel = Some (ID rc) /\
  (forall k, k <> PodIDLabel -> k <> RCIDLabel ->
     map_get (computePodLabels rc) k = map_get (PodLabels rc) k) /\
  (forall t node w,
     match scheduleNoAudit rc t node w with
     | (Ok t', _) => kvOps t' = kvOps t ++
         [OpSetLabels node (man_id (RC_Manifest rc)) (computePodLabels rc);
          OpSetIntent node (RC_Manifest rc)]
     | (Fail _, _) => True
     end) /\
  (forall a node w,
     match schedule rc a node w with
     | (Ok a', _) => kvOps (at_tx a') = kvOps (at_tx a) ++
         [OpSetLabels node (man_id (RC_Manifest rc)) (computePodLabels rc);
          OpSetIntent node (RC_Manifest rc)]
     | (Fail _, _) => True
     end) /\
  (forall oldNode newNode w, exists evs,
     w_log (snd (finalizeCompleteTransfer rc oldNode newNode w)) = w_log w ++ evs /\
     Forall (fun ls => ls = computePodLabels rc) (label_maps_written evs)).
Proof.
  intros rc. unfold computePodLabels.
  assert (Hne : PodIDLabel <> RCIDLabel) by discriminate.
  split; [|split; [|split; [|split; [|split]]]].
  - rewrite map_get_set_other by exact Hne. apply map_get_set_same.
  - apply map_get_set_same.
  - intros k H1 H2. rewrite !map_get_set_other by assumption. reflexivity.
  - intros t node w.
    destruct (HExt_scheduleNoAudit (fun _ => True) rc t node I w) as [_ [_ [_ [_ R]]]].
    destruct (scheduleNoAudit rc t node w) as [[t'|e] w']; simpl in *; [apply R|exact I].
  - intros a node w.
    destruct (HExt_schedule (fun _ => True) rc a node I w) as [_ [_ [_ [_ R]]]].
    destruct (schedule rc a node w) as [[a'|e] w']; simpl in *; [apply R|exact I].
  - intros oldNode newNode w. fold (computePodLabels rc).
    assert (H : HExt (label_ok rc) (finalizeCompleteTransfer rc oldNode newNode) (fun _ => True)).
    { unfold finalizeCompleteTransfer.
      eapply HExt_bind; [apply HExt_CurrentPods; exact I|]. intros current _.
      eapply HExt_bind; [apply HExt_addT|]. intros t [Ht _].
      eapply HExt_bind; [apply HExt_unschedule; exact I|]. intros a2 [Ha2 _].
      eapply HExt_bind; [apply HExt_auditCommit|].
      - simpl. rewrite Ha2. simpl. rewrite Ht. simpl.
        repeat constructor.
      - intros ok _. apply HExt_okOrRollback. }
    destruct (H w) as [evs [L [F _]]]. exists evs. split; [exact L|].
    apply label_maps_written_ok. exact F.
Qed.

(* ------------------------------------------------------------------------- *)
(** ** Concrete runs *)

Definition ex_manifest : Manifest := mkManifest "app" "v1".

(** A hash function for the runs: the manifest's body stands for its SHA. *)
Definition ex_SHA (m : Manifest) : option string := Some (man_body m).

Definition ex_pick (_ : list NodeName) : nat := 0.

Definition ex_rc (disabled : bool) (strategy : AllocationStrategyKind) (desired : Z) : RC :=
  {| ID := "rc1"; RC_Manifest := ex_manifest; NodeSelector := "";
     ReplicasDesired := desired; Disabled := disabled; PodLabels := [];
     AllocationStrategy := strategy |}.

(** A store where nothing fails and every transaction goes through. *)
Definition ex_world (labels : list (PodKey * Labels)) (intent : list (PodKey * Manifest))
           (status : option NodeTransfer) (eligible : list NodeName) : World :=
  mkWorld labels intent status eligible [] (fun _ => false) (fun _ _ => CallOK) [].

Definition is_alert (e : Event) : bool :=
  match e with EvAlert _ => true | _ => false end.

(** C3 (code): a disabled RC returns at once; whatever transfer is recorded
    in the status is left in place (the halt is a TODO in the source). *)
Theorem meetDesires_disabled_returns_unchanged : forall SHA pick rc w,
  Disabled rc = true -> meetDesires SHA pick rc w = (Ok tt, w).
Proof. intros SHA pick rc w H. unfold meetDesires. rewrite H. reflexivity. Qed.

Lemma meetDesires_disabled_returns_unchanged_witness :
  let w := ex_world [] [] (Some (mkNodeTransfer "n1" "n2")) [] in
  meetDesires ex_SHA ex_pick (ex_rc true PinnedStrategy 1) w = (Ok tt, w) /\
  w_status (snd (meetDesires ex_SHA ex_pick (ex_rc true PinnedStrategy 1) w))
    = Some (mkNodeTransfer "n1" "n2").
Proof.
  cbv zeta.
  rewrite (meetDesires_disabled_returns_unchanged ex_SHA ex_pick (ex_rc true PinnedStrategy 1)
             (ex_world [] [] (Some (mkNodeTransfer "n1" "n2")) []) eq_refl).
  split; reflexivity.
Defined.

(** C4 (code): a pinned RC with one pod on the ineligible node [n1]: the
    transfer engine gets [n1], one alert is raised, no status is written,
    and the pass succeeds. *)
Theorem pinned_ineligible_alerts_and_succeeds :
  let rc := ex_rc false PinnedStrategy 1 in
  let w := ex_world [(("n1", "app"), computePodLabels rc)]
                    [(("n1", "app"), ex_manifest)] None ["n2"] in
  let r := meetDesires ex_SHA ex_pick rc w in
  checkForIneligible [("n1", "app")] ["n2"] = ["n1"] /\
  fst r = Ok tt /\
  filter is_alert (w_log (snd r)) = [EvAlert nonCattleMsg] /\
  w_status (snd r) = None /\
  forall ops, In (EvTxn ops) (w_log (snd r)) ->
    forall i nt, ~ In (OpCASStatus i nt) ops.
Proof.
  vm_compute. repeat split; try reflexivity.
  intros ops H i nt. destruct H as [H|H]; [discriminate|].
  repeat (destruct H as [H|H]; [discriminate|]). contradiction.
Qed.

(* ------------------------------------------------------------------------- *)
(** ** Runs of the monad where nothing fails *)

Lemma bind_ok : forall A B (m : M A) (k : A -> M B) w a w',
  m w = (Ok a, w') -> bind m k w = k a w'.
Proof. intros A B m k w a w' H. unfold bind. rewrite H. reflexivity. Qed.

Lemma addT_ok : forall t op w,
  committed t = false -> length (kvOps t) < 64 ->
  addT t op w = (Ok (mkTx (kvOps t ++ [op]) false), w).
Proof.
  intros t op w Hc Hl. unfold addT, add_op. rewrite Hc.
  destruct (Nat.leb maxOps (length (kvOps t))) eqn:E; [|reflexivity].
  apply Nat.leb_le in E. unfold maxOps in E. lia.
Qed.

Lemma scheduleNoAudit_ok : forall rc t node w,
  committed t = false -> length (kvOps t) + 2 <= 64 ->
  scheduleNoAudit rc t node w =
  (Ok (mkTx (kvOps t ++ schedule_ops rc node) false), log_ev w (EvScheduling node)).
Proof.
  intros rc t node w Hc Hl. unfold scheduleNoAudit.
  erewrite bind_ok; [|reflexivity]. cbv beta.
  erewrite bind_ok; [|apply addT_ok; [exact Hc|lia]]. cbv beta.
  rewrite addT_ok by (simpl; rewrite ?length_app; simpl; lia).
  simpl. rewrite <- app_assoc. reflexivity.
Qed.

Lemma podIntent_ok : forall n p w,
  w_fails w (EvPodRead n p) = false ->
  podIntent n p w = (Ok (kv_get (w_intent w) (n, p)), log_ev w (EvPodRead n p)).
Proof. intros n p w H. unfold podIntent. rewrite H. reflexivity. Qed.

(** The world after a commit that the store accepts. *)
Definition commit_world (t : tx) (w : World) : World :=
  match kvOps t with
  | [] => w
  | ops => fold_left apply_op ops (log_ev w (EvTxn ops))
  end.

Lemma commit_all_ok : forall t w,
  committed t = false -> (forall k ops, w_txner w k ops = CallOK) ->
  commit t w = (Ok true, commit_world t w).
Proof.
  intros t w Hc Ht. unfold commit, commit_world. rewrite Hc.
  destruct (kvOps t) as [|op ops]; [reflexivity|].
  unfold bind, store_txn. rewrite Ht. reflexivity.
Qed.

(** The operations of the transactions sent to the store. *)
Definition txn_ops (evs : list Event) : list KVOp :=
  flat_map (fun e => match e with EvTxn ops => ops | _ => [] end) evs.

Lemma txn_ops_app : forall a b, txn_ops (a ++ b) = txn_ops a ++ txn_ops b.
Proof. intros. unfold txn_ops. apply flat_map_app. Qed.

Lemma commit_world_log : forall t w,
  exists pre, w_log (commit_world t w) = w_log w ++ pre /\ txn_ops pre = kvOps t.
Proof.
  intros t w. unfold commit_world.
  destruct (kvOps t) as [|op ops].
  - exists []. rewrite app_nil_r. auto.
  - exists [EvTxn (op :: ops)]. rewrite fold_apply_log. simpl.
    rewrite app_nil_r. auto.
Qed.

Lemma commit_world_oracles : forall t w, oracles_same w (commit_world t w).
Proof.
  intros t w. unfold commit_world. destruct (kvOps t) as [|op ops].
  - split; reflexivity.
  - destruct (fold_apply_oracles (op :: ops) (log_ev w (EvTxn (op :: ops)))) as [H1 H2].
    split; rewrite ?H1, ?H2; reflexivity.
Qed.

(** The node of the intent record an operation writes or deletes. *)
Definition intent_node (op : KVOp) : option NodeName :=
  match op with
  | OpSetIntent n _ => Some n
  | OpDeletePodIntent n _ => Some n
  | _ => None
  end.

Lemma key_eqb_fst : forall a b, key_eqb a b = true -> fst a = fst b.
Proof.
  intros [a1 a2] [b1 b2] H. unfold key_eqb in H. simpl in *.
  apply andb_true_iff in H as [H _]. apply String.eqb_eq. exact H.
Qed.

Lemma kv_get_set_other : forall V (l : list (PodKey * V)) k k' v,
  fst k <> fst k' -> kv_get (kv_set l k' v) k = kv_get l k.
Proof.
  intros V l k k' v Hne. induction l as [|[k0 v0] l IH]; simpl.
  - destruct (key_eqb k k') eqn:E; [apply key_eqb_fst in E; contradiction|reflexivity].
  - destruct (key_eqb k' k0) eqn:E1; simpl.
    + apply key_eqb_fst in E1.
      destruct (key_eqb k k0) eqn:E2; [apply key_eqb_fst in E2; congruence|reflexivity].
    + destruct (key_eqb k k0); [reflexivity|exact IH].
Qed.

Lemma kv_get_del_other : forall V (l : list (PodKey * V)) k k',
  fst k <> fst k' -> kv_get (kv_del l k') k = kv_get l k.
Proof.
  intros V l k k' Hne. unfold kv_del.
  induction l as [|[k0 v0] l IH]; simpl; [reflexivity|].
  destruct (key_eqb k0 k') eqn:E1; simpl.
  - apply key_eqb_fst in E1.
    destruct (key_eqb k k0) eqn:E2; [apply key_eqb_fst in E2; congruence|exact IH].
  - destruct (key_eqb k k0); [reflexivity|exact IH].
Qed.

Lemma apply_op_intent_other : forall w op n p,
  intent_node op <> Some n ->
  kv_get (w_intent (apply_op w op)) (n, p) = kv_get (w_intent w) (n, p).
Proof.
  intros w op n p H. destruct op as [n' p' ls|n' p' ks|n' m|n' p'|ix nt|r b a|]; simpl in *;
    try reflexivity.
  - apply kv_get_set_other. simpl. intros E. apply H. congruence.
  - apply kv_get_del_other. simpl. intros E. apply H. congruence.
Qed.

Lemma fold_apply_intent_other : forall ops w n p,
  Forall (fun op => intent_node op <> Some n) ops ->
  kv_get (w_intent (fold_left apply_op ops w)) (n, p) = kv_get (w_intent w) (n, p).
Proof.
  induction ops as [|op ops IH]; intros w n p H; simpl; [reflexivity|].
  inversion H; subst. rewrite IH by assumption. apply apply_op_intent_other. assumption.
Qed.

Lemma commit_world_intent_other : forall t w n p,
  Forall (fun op => intent_node op <> Some n) (kvOps t) ->
  kv_get (w_intent (commit_world t w)) (n, p) = kv_get (w_intent w) (n, p).
Proof.
  intros t w n p H. unfold commit_world. destruct (kvOps t) as [|op ops]; [reflexivity|].
  rewrite fold_apply_intent_other by assumption. reflexivity.
Qed.

(** *** Batches of five *)

(** How many loop iterations the pending batch may hold on entering
    iteration [i]. *)
Definition batch_bound (i : nat) : nat := if batchBoundary i then 5 else i mod 5.

Lemma batch_bound_0 : batch_bound 0 = 0.
Proof. reflexivity. Qed.

Lemma batch_bound_le : forall i, batch_bound i <= 5.
Proof.
  intros i. unfold batch_bound. destruct (batchBoundary i); [lia|].
  pose proof (Nat.mod_upper_bound i 5). lia.
Qed.

Lemma batch_bound_not_boundary : forall i, batchBoundary i = false -> batch_bound i = i mod 5.
Proof. intros i H. unfold batch_bound. rewrite H. reflexivity. Qed.

Lemma batch_bound_S : forall i, i mod 5 + 1 <= batch_bound (S i).
Proof.
  intros i. unfold batch_bound, batchBoundary.
  pose proof (Nat.div_mod_eq i 5). pose proof (Nat.mod_upper_bound i 5).
  pose proof (Nat.div_mod_eq (S i) 5). pose proof (Nat.mod_upper_bound (S i) 5).
  assert (L : Nat.ltb 0 (S i) = true) by reflexivity. rewrite L, andb_true_r.
  destruct (Nat.eqb (S i mod 5) 0) eqn:E; cbv iota.
  - lia.
  - apply Nat.eqb_neq in E. lia.
Qed.

(** *** ensureConsistency *)

(** The operations [ensureConsistency] sends, given the stored intents [I]:
    a label write and an intent write for each pod whose intent is missing
    or has another hash. *)
Definition consistency_ops (SHA : Manifest -> option string) (rc : RC) (msha : string)
           (I : PodKey -> option Manifest) (pods : list PodKey) : list KVOp :=
  flat_map (fun pod => if intentConsistent SHA msha (I pod) then []
                       else schedule_ops rc (fst pod)) pods.

Lemma consistency_ops_ext : forall SHA rc msha I I' pods,
  (forall k, In k pods -> I k = I' k) ->
  consistency_ops SHA rc msha I pods = consistency_ops SHA rc msha I' pods.
Proof.
  intros SHA rc msha I I' pods H. unfold consistency_ops.
  induction pods as [|pod pods IH]; simpl; [reflexivity|].
  rewrite H by (left; reflexivity). rewrite IH by (intros k Hk; apply H; right; exact Hk).
  reflexivity.
Qed.

(** The batch commit at the head of an [ensureConsistency] iteration. *)
Definition ec_stage (i : nat) (t : tx) : M tx :=
  if batchBoundary i then
    ok <- commit t ;;
    _ <- okOrRollback ok ;;
    ret emptyTx
  else ret t.

Lemma ensureConsistency_loop_cons : forall SHA rc msha pod pods i t,
  ensureConsistency_loop SHA rc msha (pod :: pods) i t =
  t1 <- ec_stage i t ;;
  intent <- podIntent (fst pod) (snd pod) ;;
  if intentConsistent SHA msha intent
  then ensureConsistency_loop SHA rc msha pods (S i) t1
  else t2 <- scheduleNoAudit rc t1 (fst pod) ;;
       ensureConsistency_loop SHA rc msha pods (S i) t2.
Proof. reflexivity. Qed.

Lemma ec_stage_ok : forall i t w,
  committed t = false -> (forall k ops, w_txner w k ops = CallOK) ->
  length (kvOps t) <= 2 * batch_bound i ->
  exists t1 w1 pre,
    ec_stage i t w = (Ok t1, w1) /\
    w_log w1 = w_log w ++ pre /\ txn_ops pre ++ kvOps t1 = kvOps t /\
    oracles_same w w1 /\ committed t1 = false /\
    length (kvOps t1) <= 2 * (i mod 5) /\
    (kvOps t1 = [] \/ kvOps t1 = kvOps t) /\
    (forall n p, Forall (fun op => intent_node op <> Some n) (kvOps t) ->
       kv_get (w_intent w1) (n, p) = kv_get (w_intent w) (n, p)).
Proof.
  intros i t w Hc Ht Hl. unfold ec_stage.
  destruct (batchBoundary i) eqn:B.
  - destruct (commit_world_log t w) as [pre [L P]].
    exists emptyTx, (commit_world t w), pre.
    erewrite bind_ok; [|apply commit_all_ok; assumption]. cbv beta.
    simpl. repeat split; auto.
    + rewrite P, app_nil_r. reflexivity.
    + destruct (commit_world_oracles t w); assumption.
    + destruct (commit_world_oracles t w); assumption.
    + lia.
    + intros n p H. apply commit_world_intent_other. exact H.
  - exists t, w, []. rewrite batch_bound_not_boundary in Hl by exact B.
    repeat split; auto. rewrite app_nil_r. reflexivity.
Qed.

Lemma ensureConsistency_loop_run : forall SHA rc msha pods i t w,
  committed t = false ->
  length (kvOps t) <= 2 * batch_bound i ->
  NoDup (map fst pods) ->
  Forall (fun op => forall n, In n (map fst pods) -> intent_node op <> Some n) (kvOps t) ->
  (forall n p, w_fails w (EvPodRead n p) = false) ->
  (forall k ops, w_txner w k ops = CallOK) ->
  fst (ensureConsistency_loop SHA rc msha pods i t w) = Ok tt /\
  exists evs, w_log (snd (ensureConsistency_loop SHA rc msha pods i t w)) = w_log w ++ evs /\
    txn_ops evs = kvOps t ++ consistency_ops SHA rc msha (kv_get (w_intent w)) pods.
Proof.
  intros SHA rc msha pods. induction pods as [|pod pods IH];
    intros i t w Hc Hl Hnd Hf Hr Ht.
  - simpl. erewrite bind_ok; [|apply commit_all_ok; assumption]. simpl.
    split; [reflexivity|].
    destruct (commit_world_log t w) as [pre [L P]]. exists pre.
    rewrite L, P, app_nil_r. auto.
  - rewrite ensureConsistency_loop_cons.
    destruct (ec_stage_ok i t w Hc Ht Hl)
      as (t1 & w1 & pre & Hrun & L1 & P1 & [O1 O1'] & Hc1 & Hl1 & Hops1 & Hint1).
    erewrite bind_ok; [|exact Hrun]. cbv beta.
    simpl in Hnd. inversion Hnd as [|? ? Hnin Hnd']; subst.
    assert (Hfpod : Forall (fun op => intent_node op <> Some (fst pod)) (kvOps t)).
    { eapply Forall_impl; [|exact Hf]. intros op H. apply H. left; reflexivity. }
    assert (Hagree : forall k, In k pods -> kv_get (w_intent w1) k = kv_get (w_intent w) k).
    { intros [n p] Hk. apply Hint1. eapply Forall_impl; [|exact Hf].
      intros op H. apply H. right. apply (in_map fst) in Hk. exact Hk. }
    assert (Hf1 : Forall (fun op => forall n, In n (map fst pods) -> intent_node op <> Some n)
                         (kvOps t1)).
    { destruct Hops1 as [E|E]; rewrite E; [constructor|].
      eapply Forall_impl; [|exact Hf]. intros op H n Hn. apply H. right. exact Hn. }
    assert (Hr1 : forall n p, w_fails w1 (EvPodRead n p) = false) by (intros; rewrite O1; auto).
    assert (Ht1 : forall k ops, w_txner w1 k ops = CallOK) by (intros; rewrite O1'; auto).
    erewrite bind_ok; [|apply podIntent_ok; apply Hr1]. cbv beta.
    destruct pod as [n p]. simpl fst in *. simpl snd in *.
    rewrite (Hint1 n p Hfpod).
    pose proof (Nat.mod_upper_bound i 5) as Hmod.
    destruct (intentConsistent SHA msha (kv_get (w_intent w) (n, p))) eqn:Ec.
    + destruct (IH (S i) t1 (log_ev w1 (EvPodRead n p)) Hc1) as [R [evs [L E]]];
        auto.
      { pose proof (batch_bound_S i). lia. }
      split; [exact R|]. exists (pre ++ EvPodRead n p :: evs).
      rewrite L. simpl. rewrite L1, <- !app_assoc. split; [reflexivity|].
      rewrite txn_ops_app. simpl. rewrite E.
      unfold consistency_ops at 2. simpl. rewrite Ec. fold (consistency_ops SHA rc msha).
      rewrite (consistency_ops_ext SHA rc msha _ (kv_get (w_intent w)) pods) by exact Hagree.
      rewrite <- P1, app_assoc. reflexivity.
    + erewrite bind_ok; [|apply scheduleNoAudit_ok; [exact Hc1|lia]]. cbv beta.
      destruct (IH (S i) (mkTx (kvOps t1 ++ schedule_ops rc n) false)
                   (log_ev (log_ev w1 (EvPodRead n p)) (EvScheduling n)) eq_refl)
        as [R [evs [L E]]]; auto.
      { simpl. rewrite length_app. simpl. pose proof (batch_bound_S i). lia. }
      { simpl. apply Forall_app. split; [exact Hf1|].
        unfold schedule_ops. repeat constructor; simpl; intros m Hm E'; 
          inversion E'; subst; contradiction. }
      split; [exact R|]. exists (pre ++ EvPodRead n p :: EvScheduling n :: evs).
      rewrite L. simpl. rewrite L1, <- !app_assoc. split; [reflexivity|].
      rewrite txn_ops_app. simpl. rewrite E. simpl.
      unfold consistency_ops at 2. simpl. rewrite Ec. fold (consistency_ops SHA rc msha).
      rewrite (consistency_ops_ext SHA rc msha _ (kv_get (w_intent w)) pods) by exact Hagree.
      rewrite <- P1, <- !app_assoc. reflexivity.
Qed.

(** C2 (counterexample): one placement on [n1] without a stored intent;
    [ensureConsistency] sends a transaction with a label write for [n1]
    alongside the intent write. *)
Lemma ensureConsistency_writes_labels :
  let rc := ex_rc false CattleStrategy 1 in
  w_log (snd (ensureConsistency ex_SHA rc [("n1", "app")] (ex_world [] [] None []))) =
  [EvPodRead "n1" "app"; EvScheduling "n1";
   EvTxn [OpSetLabels "n1" "app" (computePodLabels rc); OpSetIntent "n1" ex_manifest]].
Proof. vm_compute. reflexivity. Qed.

(** C2 (amended): when the RC's manifest hashes to [msha], the placements
    are on distinct nodes, the intent reads succeed and the store accepts
    every transaction, [ensureConsistency] succeeds, and the operations it
    sends are, placement by placement in order, a label write of the
    computed pod labels followed by an intent write of the RC's manifest,
    exactly for the placements whose stored intent is absent or hashes to
    something other than [msha]; nothing for the others. *)
Theorem ensureConsistency_rewrites_stale_placements :
  forall (SHA : Manifest -> option string) rc current w msha,
  SHA (RC_Manifest rc) = Some msha ->
  NoDup (map fst current) ->
  (forall n p, w_fails w (EvPodRead n p) = false) ->
  (forall k ops, w_txner w k ops = CallOK) ->
  fst (ensureConsistency SHA rc current w) = Ok tt /\
  exists evs, w_log (snd (ensureConsistency SHA rc current w)) = w_log w ++ evs /\
    txn_ops evs =
    flat_map (fun pod =>
                if intentConsistent SHA msha (kv_get (w_intent w) pod) then []
                else [OpSetLabels (fst pod) (man_id (RC_Manifest rc)) (computePodLabels rc);
                      OpSetIntent (fst pod) (RC_Manifest rc)])
             current.
Proof.
  intros SHA rc current w msha Hsha Hnd Hr Ht.
  unfold ensureConsistency. rewrite Hsha.
  exact (ensureConsistency_loop_run SHA rc msha current 0 emptyTx w
           eq_refl (le_0_n _) Hnd (Forall_nil _) Hr Ht).
Qed.

Lemma ensureConsistency_rewrites_stale_placements_witness :
  let rc := ex_rc false CattleStrategy 2 in
  let w := ex_world [] [(("n1", "app"), ex_manifest)] None [] in
  fst (ensureConsistency ex_SHA rc [("n1", "app"); ("n2", "app")] w) = Ok tt /\
  exists evs, w_log (snd (ensureConsistency ex_SHA rc [("n1", "app"); ("n2", "app")] w))
                = w_log w ++ evs /\
    txn_ops evs =
    flat_map (fun pod =>
                if intentConsistent ex_SHA "v1" (kv_get (w_intent w) pod) then []
                else [OpSetLabels (fst pod) (man_id (RC_Manifest rc)) (computePodLabels rc);
                      OpSetIntent (fst pod) (RC_Manifest rc)])
             [("n1", "app"); ("n2", "app")].
Proof.
  cbv zeta.
  apply (ensureConsistency_rewrites_stale_placements ex_SHA (ex_rc false CattleStrategy 2)
           [("n1", "app"); ("n2", "app")]
           (ex_world [] [(("n1", "app"), ex_manifest)] None []) "v1").
  - reflexivity.
  - simpl. constructor; [simpl; intros [H|H]; [discriminate|contradiction]|].
    constructor; [simpl; tauto|constructor].
  - intros n p. reflexivity.
  - intros k ops. reflexivity.
Defined.

(* ------------------------------------------------------------------------- *)
(** ** Node sets *)

Lemma string_compare_le_trans : forall a b c,
  String.compare a b <> Gt -> String.compare b c <> Gt -> String.compare a c <> Gt.
Proof.
  induction a as [|x a IH]; intros [|y b] [|z c] H1 H2; simpl in *; try congruence.
  revert H1 H2. unfold Ascii.compare.
  destruct (N.compare_spec (Ascii.N_of_ascii x) (Ascii.N_of_ascii y));
  destruct (N.compare_spec (Ascii.N_of_ascii y) (Ascii.N_of_ascii z));
  destruct (N.compare_spec (Ascii.N_of_ascii x) (Ascii.N_of_ascii z));
    intros Ha Hb; try congruence; try lia.
  apply (IH b c Ha Hb).
Qed.

Lemma string_leb_compare : forall a b, String.leb a b = true <-> String.compare a b <> Gt.
Proof.
  intros a b. unfold String.leb. destruct (String.compare a b); split; congruence.
Qed.

Lemma string_leb_trans : forall a b c,
  String.leb a b = true -> String.leb b c = true -> String.leb a c = true.
Proof.
  intros a b c H1 H2. apply string_leb_compare in H1, H2. apply string_leb_compare.
  eapply string_compare_le_trans; eassumption.
Qed.

Lemma string_leb_neq_ltb : forall a b,
  String.leb a b = true -> a <> b -> String.ltb a b = true.
Proof.
  intros a b H Hne. unfold String.leb, String.ltb in *.
  destruct (String.compare a b) eqn:E; try reflexivity; try discriminate.
  apply String.compare_eq_iff in E. contradiction.
Qed.

Lemma mem_In : forall n l, mem n l = true <-> In n l.
Proof.
  intros n l. induction l as [|m l IH]; simpl; [split; [discriminate|contradiction]|].
  rewrite orb_true_iff, IH, String.eqb_eq. split; intros [H|H]; auto.
Qed.

Lemma NewNodeSet_fold : forall l acc,
  NoDup acc ->
  NoDup (fold_left (fun acc n => if mem n acc then acc else acc ++ [n]) l acc) /\
  (forall x, In x (fold_left (fun acc n => if mem n acc then acc else acc ++ [n]) l acc)
             <-> In x acc \/ In x l).
Proof.
  induction l as [|n l IH]; intros acc Hnd; simpl.
  - split; [exact Hnd|]. intros x. tauto.
  - destruct (mem n acc) eqn:E.
    + apply mem_In in E. destruct (IH acc Hnd) as [H1 H2]. split; [exact H1|].
      intros x. rewrite H2. split; [tauto|]. intros [H|[<-|H]]; auto.
    + assert (Hnd' : NoDup (acc ++ [n])).
      { apply NoDup_app; auto using NoDup_cons, NoDup_nil.
        intros x Hx [Ex|[]]. subst x.
        assert (mem n acc = true) by (apply mem_In; exact Hx).
        congruence. }
      destruct (IH (acc ++ [n]) Hnd') as [H1 H2]. split; [exact H1|].
      intros x. rewrite H2, in_app_iff. simpl. tauto.
Qed.

Lemma NewNodeSet_spec : forall l,
  NoDup (NewNodeSet l) /\ (forall x, In x (NewNodeSet l) <-> In x l).
Proof.
  intros l. unfold NewNodeSet. destruct (NewNodeSet_fold l [] (NoDup_nil _)) as [H1 H2].
  split; [exact H1|]. intros x. rewrite H2. simpl. tauto.
Qed.

Lemma Difference_spec : forall a b,
  (NoDup a -> NoDup (Difference a b)) /\
  (forall x, In x (Difference a b) <-> In x a /\ ~ In x b).
Proof.
  intros a b. unfold Difference. split.
  - apply NoDup_filter.
  - intros x. rewrite filter_In, negb_true_iff, <- (mem_In x b).
    destruct (mem x b); intuition congruence.
Qed.

Lemma insert_perm : forall x l, Permutation (insert x l) (x :: l).
Proof.
  intros x l. induction l as [|y l IH]; simpl; [reflexivity|].
  destruct (String.leb x y); [reflexivity|].
  rewrite IH. apply perm_swap.
Qed.

Lemma ListNodes_perm : forall s, Permutation (ListNodes s) s.
Proof.
  induction s as [|x s IH]; simpl; [reflexivity|].
  rewrite insert_perm. apply perm_skip. exact IH.
Qed.

Definition str_le (a b : NodeName) : Prop := String.leb a b = true.

Lemma insert_HdRel : forall x y l,
  HdRel str_le y l -> str_le y x -> HdRel str_le y (insert x l).
Proof.
  intros x y [|z l] H Hyx; simpl; [constructor; exact Hyx|].
  destruct (String.leb x z); constructor; [exact Hyx|].
  inversion H; assumption.
Qed.

Lemma insert_sorted : forall x l, Sorted str_le l -> Sorted str_le (insert x l).
Proof.
  intros x l. induction l as [|y l IH]; intros H; simpl.
  - repeat constructor.
  - destruct (String.leb x y) eqn:E.
    + constructor; [exact H|]. constructor. exact E.
    + inversion H as [|? ? Hs Hd]; subst. constructor; [apply IH; exact Hs|].
      apply insert_HdRel; [exact Hd|].
      destruct (String.leb_total x y) as [E'|E']; [congruence|exact E'].
Qed.

Lemma ListNodes_sorted : forall s, Sorted str_le (ListNodes s).
Proof.
  induction s as [|x s IH]; simpl; [constructor|]. apply insert_sorted. exact IH.
Qed.

Lemma strictly_sorted : forall l,
  StronglySorted str_le l -> NoDup l -> StronglySorted (fun a b => String.ltb a b = true) l.
Proof.
  intros l H. induction H as [|a l Hs IH Hf]; intros Hnd; constructor.
  - inversion Hnd; subst. apply IH. assumption.
  - inversion Hnd as [|? ? Hnin _]; subst. rewrite Forall_forall in *.
    intros b Hb. apply string_leb_neq_ltb; [apply Hf; exact Hb|].
    intros ->. contradiction.
Qed.

(** The candidates of [addPods]: exactly the eligible nodes without a
    current placement, each once, in strictly increasing hostname order. *)
Lemma addPodsCandidates_spec : forall current eligible,
  let cands := addPodsCandidates current eligible in
  StronglySorted (fun a b => String.ltb a b = true) cands /\
  (forall x, In x cands <-> In x eligible /\ ~ In x (map fst current)).
Proof.
  intros current eligible cands.
  destruct (NewNodeSet_spec eligible) as [Nd1 I1].
  destruct (NewNodeSet_spec (map fst current)) as [Nd2 I2].
  destruct (Difference_spec (NewNodeSet eligible) (NewNodeSet (map fst current))) as [D1 D2].
  assert (P : Permutation cands (Difference (NewNodeSet eligible) (NewNodeSet (map fst current))))
    by apply ListNodes_perm.
  split.
  - apply strictly_sorted.
    + apply Sorted_StronglySorted; [intros a b c; apply string_leb_trans|].
      apply ListNodes_sorted.
    + apply (Permutation_NoDup (Permutation_sym P)). apply D1. exact Nd1.
  - intros x. split.
    + intros H. apply (Permutation_in _ P) in H. apply D2 in H as [Ha Hb].
      rewrite I1 in Ha. rewrite I2 in Hb. auto.
    + intros [Ha Hb]. apply (Permutation_in _ (Permutation_sym P)). apply D2.
      rewrite I1, I2. auto.
Qed.

(* ------------------------------------------------------------------------- *)
(** ** The loops of addPods and removePods *)

(** The nodes of the "Scheduling on" and "Unscheduling from" log lines. *)
Definition sched_nodes (evs : list Event) : list NodeName :=
  flat_map (fun e => match e with EvScheduling n => [n] | _ => [] end) evs.

Definition unsched_nodes (evs : list Event) : list NodeName :=
  flat_map (fun e => match e with EvUnscheduling n => [n] | _ => [] end) evs.

(** Events that are neither log line. *)
Definition quiet (e : Event) : Prop :=
  match e with EvScheduling _ | EvUnscheduling _ => False | _ => True end.

Lemma sched_nodes_app : forall a b, sched_nodes (a ++ b) = sched_nodes a ++ sched_nodes b.
Proof. intros. unfold sched_nodes. apply flat_map_app. Qed.

Lemma unsched_nodes_app : forall a b, unsched_nodes (a ++ b) = unsched_nodes a ++ unsched_nodes b.
Proof. intros. unfold unsched_nodes. apply flat_map_app. Qed.

Lemma quiet_nodes : forall evs, Forall quiet evs -> sched_nodes evs = [] /\ unsched_nodes evs = [].
Proof.
  intros evs H. induction H as [|e evs He H [IH1 IH2]]; [split; reflexivity|].
  destruct e; simpl in He; try contradiction; simpl; auto.
Qed.

Lemma bind_fail : forall A B (m : M A) (k : A -> M B) w e w',
  m w = (Fail e, w') -> bind m k w = (Fail e, w').
Proof. intros A B m k w e w' H. unfold bind. rewrite H. reflexivity. Qed.

Lemma skipn_nth_error : forall A (l : list A) i x,
  nth_error l i = Some x -> skipn i l = x :: skipn (S i) l.
Proof.
  intros A l. induction l as [|y l IH]; intros [|i] x H; simpl in *; try discriminate.
  - injection H as ->. reflexivity.
  - apply IH. exact H.
Qed.

(** The batch commit at the head of an iteration of both loops. *)
Definition ap_stage (rc : RC) (i : nat) (txn : AuditingTxn) : M AuditingTxn :=
  if batchBoundary i then
    ok <- auditCommit (ID rc) txn ;;
    _ <- okOrRollback ok ;;
    ret (newAuditingTransaction (at_nodes txn))
  else ret txn.

Lemma addPods_loop_S : forall rc ps fuel i txn,
  addPods_loop rc ps (S fuel) i txn =
  txn1 <- ap_stage rc i txn ;;
  match nth_error ps i with
  | None =>
      _ <- alert notEnoughNodesMsg ;;
      ok <- auditCommit (ID rc) txn1 ;;
      _ <- okOrRollback ok ;;
      fail (ErrMsg notEnoughNodesMsg)
  | Some scheduleOn =>
      txn2 <- schedule rc txn1 scheduleOn ;;
      addPods_loop rc ps fuel (S i) txn2
  end.
Proof. reflexivity. Qed.

Lemma HExt_ap_stage : forall rc i txn, HExt quiet (ap_stage rc i txn) (fun _ => True).
Proof.
  intros rc i txn. unfold ap_stage. apply HExt_if; [|apply HExt_ret; exact I].
  eapply HExt_bind; [apply HExt_auditCommit; exact I|]. intros ok _.
  eapply HExt_bind; [apply HExt_okOrRollback|]. intros _ _. apply HExt_ret. exact I.
Qed.

Lemma addT_world : forall t op w, snd (addT t op w) = w.
Proof. intros t op w. unfold addT. destruct (add_op t op); reflexivity. Qed.

Lemma schedule_log : forall rc a n w,
  w_log (snd (schedule rc a n w)) = w_log w ++ [EvScheduling n] /\
  oracles_same w (snd (schedule rc a n w)).
Proof.
  intros rc a n w.
  destruct (HExt_schedule (fun e => e = EvScheduling n) rc a n eq_refl w)
    as [evs [L [F [O _]]]].
  split; [|exact O]. rewrite L. f_equal.
  unfold schedule, scheduleNoAudit, bind in L. unfold emit at 1 in L. cbv beta iota in L.
  destruct (addT (at_tx a) _ _) as [[t1|e1] w1] eqn:E1;
    pose proof (addT_world (at_tx a)
                  (OpSetLabels n (man_id (RC_Manifest rc)) (computePodLabels rc))
                  (log_ev w (EvScheduling n))) as W1; rewrite E1 in W1; simpl in W1; subst w1.
  - destruct (addT t1 _ _) as [[t2|e2] w2] eqn:E2;
      pose proof (addT_world t1 (OpSetIntent n (RC_Manifest rc))
                    (log_ev w (EvScheduling n))) as W2; rewrite E2 in W2; simpl in W2;
      subst w2; simpl in L; apply app_inv_head in L; symmetry; exact L.
  - simpl in L. apply app_inv_head in L. symmetry; exact L.
Qed.

Lemma unschedule_log : forall rc a n w,
  w_log (snd (unschedule rc a n w)) = w_log w ++ [EvUnscheduling n] /\
  oracles_same w (snd (unschedule rc a n w)).
Proof.
  intros rc a n w.
  destruct (HExt_unschedule (fun e => e = EvUnscheduling n) rc a n eq_refl w)
    as [evs [L [F [O _]]]].
  split; [|exact O]. rewrite L. f_equal.
  unfold unschedule, bind in L. unfold emit at 1 in L. cbv beta iota in L.
  destruct (addT (at_tx a) _ _) as [[t1|e1] w1] eqn:E1;
    pose proof (addT_world (at_tx a) (OpDeletePodIntent n (man_id (RC_Manifest rc)))
                  (log_ev w (EvUnscheduling n))) as W1; rewrite E1 in W1; simpl in W1; subst w1.
  - destruct (addT t1 _ _) as [[t2|e2] w2] eqn:E2;
      pose proof (addT_world t1
                    (OpRemoveLabels n (man_id (RC_Manifest rc)) (map fst (computePodLabels rc)))
                    (log_ev w (EvUnscheduling n))) as W2; rewrite E2 in W2; simpl in W2;
      subst w2; simpl in L; apply app_inv_head in L; symmetry; exact L.
  - simpl in L. apply app_inv_head in L. symmetry; exact L.
Qed.

(** Every run of the [addPods] loop from iteration [i]: the nodes of its
    "Scheduling on" lines are the candidates from position [i] on, in order,
    up to where the run stops. *)
Lemma addPods_loop_sched : forall rc ps fuel i txn w,
  exists evs, w_log (snd (addPods_loop rc ps fuel i txn w)) = w_log w ++ evs /\
    exists k, sched_nodes evs = firstn k (skipn i ps).
Proof.
  intros rc ps fuel. induction fuel as [|fuel IH]; intros i txn w.
  - assert (H : HExt quiet (addPods_loop rc ps 0 i txn) (fun _ => True)).
    { simpl. eapply HExt_bind; [apply HExt_auditCommit; exact I|].
      intros ok _. apply HExt_okOrRollback. }
    destruct (H w) as [evs [L [F _]]]. exists evs. split; [exact L|].
    exists 0. apply quiet_nodes. exact F.
  - rewrite addPods_loop_S.
    pose proof (HExt_ap_stage rc i txn w) as [evs1 [L1 [F1 _]]].
    destruct (ap_stage rc i txn w) as [[txn1|e] w1] eqn:E; simpl in L1.
    + erewrite bind_ok; [|exact E]. cbv beta.
      destruct (nth_error ps i) as [n|] eqn:N.
      * pose proof (schedule_log rc txn1 n w1) as [L2 _].
        destruct (schedule rc txn1 n w1) as [[txn2|e2] w2] eqn:S2; simpl in L2.
        -- erewrite bind_ok; [|exact S2].
           destruct (IH (S i) txn2 w2) as [evs3 [L3 [k K3]]].
           exists (evs1 ++ EvScheduling n :: evs3). split.
           ++ rewrite L3, L2, L1, <- !app_assoc. reflexivity.
           ++ exists (S k). rewrite sched_nodes_app. simpl.
              rewrite (proj1 (quiet_nodes _ F1)), K3, (skipn_nth_error _ ps i n N).
              reflexivity.
        -- erewrite bind_fail; [|exact S2]. simpl.
           exists (evs1 ++ [EvScheduling n]). split.
           ++ rewrite L2, L1, <- app_assoc. reflexivity.
           ++ exists 1. rewrite sched_nodes_app, (proj1 (quiet_nodes _ F1)).
              rewrite (skipn_nth_error _ ps i n N). reflexivity.
      * assert (H : HExt quiet
                  (_ <- alert notEnoughNodesMsg ;;
                   ok <- auditCommit (ID rc) txn1 ;;
                   _ <- okOrRollback ok ;;
                   fail (ErrMsg notEnoughNodesMsg)) (fun _ : unit => True)).
        { eapply HExt_bind; [apply HExt_interact; exact I|]. intros _ _.
          eapply HExt_bind; [apply HExt_auditCommit; exact I|]. intros ok _.
          eapply HExt_bind; [apply HExt_okOrRollback|]. intros _ _. apply HExt_fail. }
        destruct (H w1) as [evs2 [L2 [F2 _]]].
        exists (evs1 ++ evs2). split.
        -- rewrite L2, L1, <- app_assoc. reflexivity.
        -- exists 0. rewrite sched_nodes_app, (proj1 (quiet_nodes _ F1)),
             (proj1 (quiet_nodes _ F2)). reflexivity.
    + erewrite bind_fail; [|exact E]. simpl. exists evs1. split; [exact L1|].
      exists 0. apply quiet_nodes. exact F1.
Qed.

(** C7: the candidates of an [addPods] pass are the eligible nodes without a
    current placement, each once, in strictly increasing lexicographic
    hostname order; and the pass schedules onto them in that order: the
    nodes of its "Scheduling on" lines are the first [k] candidates, the
    [j]-th line naming the [j]-th smallest candidate. *)
Theorem addPods_schedules_sorted_candidates : forall rc current eligible w,
  let cands := addPodsCandidates current eligible in
  StronglySorted (fun a b => String.ltb a b = true) cands /\
  (forall x, In x cands <-> In x eligible /\ ~ In x (map fst current)) /\
  exists evs, w_log (snd (addPods rc current eligible w)) = w_log w ++ evs /\
    exists k, sched_nodes evs = firstn k cands.
Proof.
  intros rc current eligible w cands.
  destruct (addPodsCandidates_spec current eligible) as [S1 S2].
  split; [exact S1|]. split; [exact S2|].
  unfold addPods. exact (addPods_loop_sched rc cands _ 0 _ w).
Qed.

Lemma skipn_nth : forall A (l : list A) k d,
  k < length l -> skipn k l = nth k l d :: skipn (S k) l.
Proof.
  intros A l. induction l as [|y l IH]; intros [|k] d H; simpl in *; try lia.
  - reflexivity.
  - apply IH. lia.
Qed.

Lemma PopAny_perm : forall pick s x s',
  PopAny pick s = Some (x, s') -> Permutation s (x :: s').
Proof.
  intros pick s x s' H. destruct s as [|y s0]; [discriminate|].
  unfold PopAny in H. injection H as <- <-.
  set (s := y :: s0). set (k := pick s mod length s).
  assert (Hk : k < length s) by (apply Nat.mod_upper_bound; simpl; lia).
  rewrite <- (firstn_skipn k s) at 1. rewrite (skipn_nth _ s k y Hk).
  apply Permutation_sym, Permutation_middle.
Qed.

Lemma PopAny_none : forall pick s, PopAny pick s = None -> s = [].
Proof. intros pick [|y s] H; [reflexivity|discriminate]. Qed.

Lemma removePods_loop_S : forall pick rc fuel i preferred rest txn,
  removePods_loop pick rc (S fuel) i preferred rest txn =
  txn1 <- ap_stage rc i txn ;;
  match PopAny pick preferred with
  | Some (unscheduleFrom, preferred') =>
      txn2 <- unschedule rc txn1 unscheduleFrom ;;
      removePods_loop pick rc fuel (S i) preferred' rest txn2
  | None =>
      match PopAny pick rest with
      | Some (unscheduleFrom, rest') =>
          txn2 <- unschedule rc txn1 unscheduleFrom ;;
          removePods_loop pick rc fuel (S i) preferred rest' txn2
      | None =>
          ok <- auditCommit (ID rc) txn1 ;;
          _ <- okOrRollback ok ;;
          fail (ErrMsg unscheduleEnoughMsg)
      end
  end.
Proof. reflexivity. Qed.

(** Every run of the [removePods] loop: its "Unscheduling from" lines name
    first nodes of [preferred] ([a]), then nodes of [rest] ([b]); a node of
    [rest] is named only once all of [preferred] has been. *)
Lemma removePods_loop_order : forall pick rc fuel i preferred rest txn w,
  exists evs, w_log (snd (removePods_loop pick rc fuel i preferred rest txn w)) = w_log w ++ evs /\
    exists a b, unsched_nodes evs = a ++ b /\ incl a preferred /\ incl b rest /\
      (b <> [] -> incl preferred a).
Proof.
  intros pick rc fuel. induction fuel as [|fuel IH]; intros i preferred rest txn w.
  - assert (H : HExt quiet (removePods_loop pick rc 0 i preferred rest txn) (fun _ => True)).
    { simpl. eapply HExt_bind; [apply HExt_auditCommit; exact I|].
      intros ok _. apply HExt_okOrRollback. }
    destruct (H w) as [evs [L [F _]]]. exists evs. split; [exact L|].
    exists [], []. rewrite (proj2 (quiet_nodes _ F)).
    repeat split; try (intros ? []); congruence.
  - rewrite removePods_loop_S.
    pose proof (HExt_ap_stage rc i txn w) as [evs1 [L1 [F1 _]]].
    pose proof (proj2 (quiet_nodes _ F1)) as Q1.
    destruct (ap_stage rc i txn w) as [[txn1|e] w1] eqn:E; simpl in L1.
    + erewrite bind_ok; [|exact E]. cbv beta.
      destruct (PopAny pick preferred) as [[x preferred']|] eqn:P.
      * apply PopAny_perm in P.
        pose proof (unschedule_log rc txn1 x w1) as [L2 _].
        destruct (unschedule rc txn1 x w1) as [[txn2|e2] w2] eqn:U; simpl in L2.
        -- erewrite bind_ok; [|exact U].
           destruct (IH (S i) preferred' rest txn2 w2) as [evs3 [L3 [a [b [K3 [A3 [B3 C3]]]]]]].
           exists (evs1 ++ EvUnscheduling x :: evs3). split.
           ++ rewrite L3, L2, L1, <- !app_assoc. reflexivity.
           ++ exists (x :: a), b. rewrite unsched_nodes_app, Q1. simpl. rewrite K3.
              split; [reflexivity|]. split; [|split; [exact B3|]].
              ** intros y [<-|Hy]; apply (Permutation_in _ (Permutation_sym P)); simpl; auto.
              ** intros Hb y Hy. apply (Permutation_in _ P) in Hy. destruct Hy as [<-|Hy];
                   [left; reflexivity|right; apply C3; assumption].
        -- erewrite bind_fail; [|exact U]. simpl.
           exists (evs1 ++ [EvUnscheduling x]). split.
           ++ rewrite L2, L1, <- app_assoc. reflexivity.
           ++ exists [x], []. rewrite unsched_nodes_app, Q1. simpl.
              split; [reflexivity|]. split; [|split; [intros ? []|congruence]].
              intros y [<-|[]]. apply (Permutation_in _ (Permutation_sym P)). left; reflexivity.
      * apply PopAny_none in P. subst preferred.
        destruct (PopAny pick rest) as [[x rest']|] eqn:R.
        -- apply PopAny_perm in R.
           pose proof (unschedule_log rc txn1 x w1) as [L2 _].
           destruct (unschedule rc txn1 x w1) as [[txn2|e2] w2] eqn:U; simpl in L2.
           ++ erewrite bind_ok; [|exact U].
              destruct (IH (S i) [] rest' txn2 w2) as [evs3 [L3 [a [b [K3 [A3 [B3 C3]]]]]]].
              exists (evs1 ++ EvUnscheduling x :: evs3). split.
              ** rewrite L3, L2, L1, <- !app_assoc. reflexivity.
              ** exists [], (x :: b). rewrite unsched_nodes_app, Q1. simpl. rewrite K3.
                 assert (a = []) as -> by (destruct a as [|y a]; [reflexivity|];
                                           exfalso; apply (A3 y); left; reflexivity).
                 split; [reflexivity|]. split; [intros ? []|]. split; [|intros _ ? []].
                 intros y [<-|Hy]; apply (Permutation_in _ (Permutation_sym R)); simpl; auto.
           ++ erewrite bind_fail; [|exact U]. simpl.
              exists (evs1 ++ [EvUnscheduling x]). split.
              ** rewrite L2, L1, <- app_assoc. reflexivity.
              ** exists [], [x]. rewrite unsched_nodes_app, Q1. simpl.
                 split; [reflexivity|]. split; [intros ? []|]. split; [|intros _ ? []].
                 intros y [<-|[]]. apply (Permutation_in _ (Permutation_sym R)). left; reflexivity.
        -- assert (H : HExt quiet
                     (ok <- auditCommit (ID rc) txn1 ;;
                      _ <- okOrRollback ok ;;
                      fail (ErrMsg unscheduleEnoughMsg)) (fun _ : unit => True)).
           { eapply HExt_bind; [apply HExt_auditCommit; exact I|]. intros ok _.
             eapply HExt_bind; [apply HExt_okOrRollback|]. intros _ _. apply HExt_fail. }
           destruct (H w1) as [evs2 [L2 [F2 _]]].
           exists (evs1 ++ evs2). split.
           ++ rewrite L2, L1, <- app_assoc. reflexivity.
           ++ exists [], []. rewrite unsched_nodes_app, Q1, (proj2 (quiet_nodes _ F2)).
              repeat split; try (intros ? []); congruence.
    + erewrite bind_fail; [|exact E]. simpl. exists evs1. split; [exact L1|].
      exists [], []. rewrite Q1. repeat split; try (intros ? []); congruence.
Qed.

(** C8: in a [removePods] pass, a node with a current placement that is not
    eligible is unscheduled before any eligible node: when the [j]-th
    "Unscheduling from" line names an eligible node, every current node
    that is not eligible has been named by an earlier line.  Every
    unscheduled node has a current placement. *)
Theorem removePods_prefers_ineligible : forall pick rc current eligible w,
  exists evs, w_log (snd (removePods pick rc current eligible w)) = w_log w ++ evs /\
    incl (unsched_nodes evs) (map fst current) /\
    forall j x y, nth_error (unsched_nodes evs) j = Some x -> In x eligible ->
      In y (map fst current) -> ~ In y eligible -> In y (firstn j (unsched_nodes evs)).
Proof.
  intros pick rc current eligible w. unfold removePods.
  set (preferred := Difference (NewNodeSet (map fst current)) (NewNodeSet eligible)).
  set (rest := Difference (NewNodeSet (map fst current)) preferred).
  destruct (removePods_loop_order pick rc (Z.to_nat (Z.of_nat (length current) - ReplicasDesired rc))
              0 preferred rest (newAuditingTransaction (map fst current)) w)
    as [evs [L [a [b [K [A [B C]]]]]]].
  destruct (NewNodeSet_spec (map fst current)) as [_ Ic].
  destruct (NewNodeSet_spec eligible) as [_ Ie].
  assert (Hp : forall y, In y preferred <-> In y (map fst current) /\ ~ In y eligible).
  { intros y. unfold preferred. rewrite (proj2 (Difference_spec _ _)), Ic, Ie. tauto. }
  assert (Hr : forall y, In y rest -> In y (map fst current) /\ In y eligible).
  { intros y Hy. unfold rest in Hy. rewrite (proj2 (Difference_spec _ _)), Ic, Hp in Hy.
    destruct Hy as [H1 H2]. split; [exact H1|].
    destruct (in_dec String.string_dec y eligible) as [He|He]; [exact He|tauto]. }
  exists evs. split; [exact L|]. rewrite K. split.
  - intros y Hy. apply in_app_or in Hy as [Hy|Hy].
    + apply Hp, A, Hy.
    + apply Hr, B, Hy.
  - intros j x y Hj Hx Hy Hny.
    assert (Hja : length a <= j).
    { destruct (Nat.lt_ge_cases j (length a)) as [Hlt|Hge]; [|exact Hge].
      rewrite nth_error_app1 in Hj by exact Hlt.
      apply nth_error_In in Hj. apply A, Hp in Hj. tauto. }
    assert (Hb : b <> []).
    { intros ->. rewrite app_nil_r in Hj. apply nth_error_None in Hja. congruence. }
    rewrite firstn_app.
    apply in_or_app. left.
    assert (Hfa : firstn j a = a) by (apply firstn_all2; exact Hja).
    rewrite Hfa. apply C; [exact Hb|]. apply Hp. auto.
Qed.

(** The operations of a list without the audit records. *)
Definition strip_audits (ops : list KVOp) : list KVOp :=
  filter (fun op => match op with OpAudit _ _ _ => false | _ => true end) ops.

Lemma strip_audits_app : forall a b,
  strip_audits (a ++ b) = strip_audits a ++ strip_audits b.
Proof. intros. unfold strip_audits. apply filter_app. Qed.

Lemma commit_world_snoc_log : forall l x c w,
  w_log (commit_world (mkTx (l ++ [x]) c) w) = w_log w ++ [EvTxn (l ++ [x])].
Proof.
  intros l x c w. unfold commit_world. cbn [kvOps].
  destruct (l ++ [x]) as [|y l'] eqn:E; [destruct l; discriminate|].
  rewrite fold_apply_log. reflexivity.
Qed.

Lemma auditCommit_ok : forall rcid a w,
  committed (at_tx a) = false -> length (kvOps (at_tx a)) < 64 ->
  (forall k ops, w_txner w k ops = CallOK) ->
  auditCommit rcid a w =
  (Ok true, commit_world (mkTx (kvOps (at_tx a) ++ [audit_op rcid a]) false) w).
Proof.
  intros rcid a w Hc Hl Ht. unfold auditCommit.
  erewrite bind_ok; [|apply addT_ok; assumption].
  apply commit_all_ok; [reflexivity|exact Ht].
Qed.

Lemma schedule_ok : forall rc a node w,
  committed (at_tx a) = false -> length (kvOps (at_tx a)) + 2 <= 64 ->
  schedule rc a node w =
  (Ok (AddNode (withTx a (mkTx (kvOps (at_tx a) ++ schedule_ops rc node) false)) node),
   log_ev w (EvScheduling node)).
Proof.
  intros rc a node w Hc Hl. unfold schedule.
  erewrite bind_ok; [|apply scheduleNoAudit_ok; assumption]. reflexivity.
Qed.

Lemma ap_stage_ok : forall rc i txn w,
  committed (at_tx txn) = false -> length (kvOps (at_tx txn)) <= 2 * batch_bound i ->
  (forall k ops, w_txner w k ops = CallOK) ->
  exists txn1 w1 pre,
    ap_stage rc i txn w = (Ok txn1, w1) /\ w_log w1 = w_log w ++ pre /\
    filter is_alert pre = [] /\ sched_nodes pre = [] /\
    strip_audits (txn_ops pre) ++ strip_audits (kvOps (at_tx txn1)) =
      strip_audits (kvOps (at_tx txn)) /\
    committed (at_tx txn1) = false /\ length (kvOps (at_tx txn1)) <= 2 * (i mod 5) /\
    oracles_same w w1.
Proof.
  intros rc i txn w Hc Hl Ht. unfold ap_stage.
  pose proof (batch_bound_le i).
  destruct (batchBoundary i) eqn:B.
  - set (t := mkTx (kvOps (at_tx txn) ++ [audit_op (ID rc) txn]) false).
    exists (newAuditingTransaction (at_nodes txn)), (commit_world t w),
           [EvTxn (kvOps (at_tx txn) ++ [audit_op (ID rc) txn])].
    erewrite bind_ok; [|apply auditCommit_ok; [exact Hc|lia|exact Ht]]. cbv beta.
    split; [reflexivity|]. split; [apply commit_world_snoc_log|].
    split; [reflexivity|]. split; [reflexivity|].
    split; [simpl; rewrite !app_nil_r, strip_audits_app; simpl; rewrite app_nil_r; reflexivity|].
    split; [reflexivity|]. split; [simpl; lia|]. apply commit_world_oracles.
  - exists txn, w, []. rewrite batch_bound_not_boundary in Hl by exact B.
    repeat split; auto. rewrite app_nil_r. reflexivity.
Qed.

Lemma strip_schedule_ops : forall rc n, strip_audits (schedule_ops rc n) = schedule_ops rc n.
Proof. reflexivity. Qed.





(* ------------------------------------------------------------------------- *)
(** ** Node transfer *)

Lemma checkForIneligible_In : forall current eligible n,
  In n (checkForIneligible current eligible) <-> In n (map fst current) /\ ~ In n eligible.
Proof.
  intros current eligible n. unfold checkForIneligible. rewrite !in_map_iff. split.
  - intros [p [<- Hp]]. apply filter_In in Hp as [Hp Hm].
    apply negb_true_iff in Hm. split; [exists p; auto|].
    intros Hin. apply (mem_In (fst p) eligible) in Hin. congruence.
  - intros [[p [<- Hp]] Hn]. exists p. split; [reflexivity|].
    apply filter_In. split; [exact Hp|]. apply negb_true_iff.
    destruct (mem (fst p) eligible) eqn:E; [|reflexivity].
    apply mem_In in E. contradiction.
Qed.

Lemma checkForIneligible_nil : forall current eligible,
  checkForIneligible current eligible = [] <-> forall n, In n (map fst current) -> In n eligible.
Proof.
  intros current eligible. split.
  - intros E n Hn. destruct (in_dec String.string_dec n eligible) as [He|He]; [exact He|].
    exfalso. assert (Hi : In n (checkForIneligible current eligible))
      by (apply checkForIneligible_In; auto).
    rewrite E in Hi. exact Hi.
  - intros Hall. destruct (checkForIneligible current eligible) as [|n l] eqn:E; [reflexivity|].
    exfalso. assert (Hi : In n (checkForIneligible current eligible)) by (rewrite E; left; auto).
    apply checkForIneligible_In in Hi as [H1 H2]. apply H2, Hall, H1.
Qed.

(** [checkForIneligible] reports exactly the nodes of current placements
    that are not eligible, and is empty exactly when every current node is
    eligible. *)
Theorem checkForIneligible_spec : forall current eligible,
  (forall n, In n (checkForIneligible current eligible) <->
             In n (map fst current) /\ ~ In n eligible) /\
  (checkForIneligible current eligible = [] <->
   forall n, In n (map fst current) -> In n eligible).
Proof.
  intros current eligible. split; [apply checkForIneligible_In|apply checkForIneligible_nil].
Qed.

(** [updateAllocations] never writes the RC status when it fails: with no
    ineligible node it fails at once and touches nothing; when deallocating
    the first ineligible node fails it stops after that call; when the
    allocation fails or returns no node it raises one alert and fails, and
    no transaction reaches the store. *)
Theorem updateAllocations_failures_write_nothing : forall rc w,
  updateAllocations rc [] w =
    (Fail (ErrMsg "Need at least one ineligible node to transfer from, had 0"), w) /\
  (forall old rest, w_fails w (EvDeallocate [old]) = true ->
     updateAllocations rc (old :: rest) w =
       (Fail (ErrMsg "Could not deallocate"), log_ev w (EvDeallocate [old]))) /\
  (forall old rest, w_fails w (EvDeallocate [old]) = false ->
     (w_fails w (EvAllocate 1) = true \/ w_alloc w = []) ->
     updateAllocations rc (old :: rest) w =
       (Fail (ErrMsg allocFailedMsg),
        log_ev (log_ev (log_ev w (EvDeallocate [old])) (EvAllocate 1)) (EvAlert allocFailedMsg))).
Proof.
  intros rc w. split; [reflexivity|]. split.
  - intros old rest H. unfold updateAllocations, bind, interact. simpl. rewrite H. reflexivity.
  - intros old rest H [Ha|Ha]; unfold updateAllocations, bind, interact, allocateNodes;
      simpl; rewrite H; simpl; [rewrite Ha; reflexivity|].
    destruct (w_fails w (EvAllocate 1)); rewrite ?Ha; reflexivity.
Qed.

Lemma updateAllocations_ok : forall rc old rest n more w,
  w_fails w (EvDeallocate [old]) = false -> w_fails w (EvAllocate 1) = false ->
  w_alloc w = n :: more -> (forall k ops, w_txner w k ops = CallOK) ->
  updateAllocations rc (old :: rest) w =
  (Ok n, commit_world (mkTx [OpCASStatus 0 (Some (mkNodeTransfer old n))] false)
                      (log_ev (log_ev w (EvDeallocate [old])) (EvAllocate 1))).
Proof.
  intros rc old rest n more w H1 H2 H3 Ht. unfold updateAllocations.
  erewrite bind_ok; [|reflexivity]. cbv beta. rewrite H1.
  erewrite bind_ok; [|unfold allocateNodes; simpl; rewrite H2; reflexivity]. cbv beta.
  simpl w_alloc. rewrite H3.
  erewrite bind_ok; [|apply addT_ok; [reflexivity|simpl; lia]]. cbv beta.
  unfold mustCommit.
  erewrite bind_ok; [|erewrite bind_ok; [|apply commit_all_ok; [reflexivity|exact Ht]];
                      reflexivity].
  reflexivity.
Qed.

(** when deallocation and allocation succeed and the store accepts the
    transaction, [updateAllocations] returns the first allocated node and
    records, in a transaction holding only the status write, a transfer from
    the first ineligible node to it; a following [isNodeTransferInProgress]
    then answers true. *)
Theorem updateAllocations_records_transfer : forall rc old rest n more w,
  w_fails w (EvDeallocate [old]) = false -> w_fails w (EvAllocate 1) = false ->
  w_alloc w = n :: more -> (forall k ops, w_txner w k ops = CallOK) ->
  let r := updateAllocations rc (old :: rest) w in
  fst r = Ok n /\
  w_status (snd r) = Some (mkNodeTransfer old n) /\
  w_log (snd r) = w_log w ++ [EvDeallocate [old]; EvAllocate 1;
                              EvTxn [OpCASStatus 0 (Some (mkNodeTransfer old n))]] /\
  (w_fails w EvStatusGet = false -> fst (isNodeTransferInProgress (snd r)) = Ok true).
Proof.
  intros rc old rest n more w H1 H2 H3 Ht r. subst r.
  rewrite (updateAllocations_ok rc old rest n more w H1 H2 H3 Ht).
  unfold commit_world. simpl. rewrite <- !app_assoc. simpl.
  split; [reflexivity|]. split; [reflexivity|]. split; [reflexivity|].
  intros H4. unfold isNodeTransferInProgress, bind, statusGet. simpl. rewrite H4. reflexivity.
Qed.

Lemma updateAllocations_records_transfer_witness :
  let w := mkWorld [] [] None [] ["n9"] (fun _ => false) (fun _ _ => CallOK) [] in
  let r := updateAllocations (ex_rc false CattleStrategy 1) ["n1"] w in
  fst r = Ok "n9" /\
  w_status (snd r) = Some (mkNodeTransfer "n1" "n9") /\
  w_log (snd r) = w_log w ++ [EvDeallocate ["n1"]; EvAllocate 1;
                              EvTxn [OpCASStatus 0 (Some (mkNodeTransfer "n1" "n9"))]] /\
  (w_fails w EvStatusGet = false -> fst (isNodeTransferInProgress (snd r)) = Ok true).
Proof.
  exact (updateAllocations_records_transfer (ex_rc false CattleStrategy 1) "n1" [] "n9" []
           (mkWorld [] [] None [] ["n9"] (fun _ => false) (fun _ _ => CallOK) [])
           eq_refl eq_refl eq_refl (fun _ _ => eq_refl)).
Defined.

Lemma kv_get_set_same : forall V (l : list (PodKey * V)) k v,
  kv_get (kv_set l k v) k = Some v.
Proof.
  intros V l [a b] v. induction l as [|[k0 v0] l IH]; simpl.
  - unfold key_eqb. simpl. rewrite !String.eqb_refl. reflexivity.
  - destruct (key_eqb (a, b) k0) eqn:E; simpl; rewrite ?E; [reflexivity|exact IH].
Qed.

(** [scheduleWithoutLabel], against a store that accepts the transaction,
    sends one transaction holding only the intent write of the RC's manifest
    for the new node: the label tree is unchanged and the intent is stored. *)
Theorem scheduleWithoutLabel_writes_intent_only : forall rc n w,
  (forall k ops, w_txner w k ops = CallOK) ->
  let r := scheduleWithoutLabel rc n w in
  fst r = Ok tt /\
  w_log (snd r) = w_log w ++ [EvScheduling n; EvTxn [OpSetIntent n (RC_Manifest rc)]] /\
  w_labels (snd r) = w_labels w /\
  kv_get (w_intent (snd r)) (n, man_id (RC_Manifest rc)) = Some (RC_Manifest rc).
Proof.
  intros rc n w Ht r. subst r. unfold scheduleWithoutLabel, bind, emit.
  rewrite addT_ok by (simpl; lia). rewrite commit_all_ok by (try reflexivity; exact Ht).
  simpl. rewrite <- app_assoc. split; [reflexivity|]. split; [reflexivity|].
  split; [reflexivity|]. apply kv_get_set_same.
Qed.

Lemma scheduleWithoutLabel_writes_intent_only_witness :
  let w := ex_world [] [] None [] in
  let rc := ex_rc false CattleStrategy 1 in
  let r := scheduleWithoutLabel rc "n2" w in
  fst r = Ok tt /\
  w_log (snd r) = w_log w ++ [EvScheduling "n2"; EvTxn [OpSetIntent "n2" (RC_Manifest rc)]] /\
  w_labels (snd r) = w_labels w /\
  kv_get (w_intent (snd r)) ("n2", man_id (RC_Manifest rc)) = Some (RC_Manifest rc).
Proof.
  exact (scheduleWithoutLabel_writes_intent_only (ex_rc false CattleStrategy 1) "n2"
           (ex_world [] [] None []) (fun _ _ => eq_refl)).
Defined.

(** [transferNodes] reads the RC status first: when the read fails the
    pass fails after that read; when a transfer is recorded it returns
    without any other interaction (no deallocation, allocation, alert or
    transaction). *)
Theorem transferNodes_in_progress_is_noop : forall rc ineligible w,
  (w_fails w EvStatusGet = true ->
   transferNodes rc ineligible w = (Fail ErrRead, log_ev w EvStatusGet)) /\
  (w_fails w EvStatusGet = false -> w_status w <> None ->
   transferNodes rc ineligible w = (Ok tt, log_ev w EvStatusGet)).
Proof.
  intros rc ineligible w. unfold transferNodes, isNodeTransferInProgress, bind, statusGet.
  split; intros H; rewrite H; [reflexivity|].
  intros Hs. destruct (w_status w); [reflexivity|congruence].
Qed.

(* ------------------------------------------------------------------------- *)
(** ** What a committed write leaves in the store *)

Lemma key_eqb_eq : forall a b, key_eqb a b = true <-> a = b.
Proof.
  intros [a1 a2] [b1 b2]. unfold key_eqb. simpl.
  rewrite andb_true_iff, !String.eqb_eq. split; [intros [-> ->]; reflexivity|].
  intros H. injection H as -> ->. auto.
Qed.

Lemma kv_get_In : forall V (l : list (PodKey * V)) k v,
  kv_get l k = Some v -> In (k, v) l.
Proof.
  intros V l k v. induction l as [|[k0 v0] l IH]; simpl; [discriminate|].
  destruct (key_eqb k k0) eqn:E.
  - apply key_eqb_eq in E. subst. intros H. injection H as ->. left; reflexivity.
  - intros H. right. apply IH, H.
Qed.

Lemma NoDup_kv_get : forall V (l : list (PodKey * V)) k v,
  NoDup (map fst l) -> In (k, v) l -> kv_get l k = Some v.
Proof.
  intros V l k v. induction l as [|[k0 v0] l IH]; simpl; [contradiction|].
  intros Hnd Hin. inversion Hnd as [|? ? Hn Hnd']; subst.
  destruct Hin as [E|Hin].
  - injection E as -> ->. rewrite (proj2 (key_eqb_eq k k) eq_refl). reflexivity.
  - destruct (key_eqb k k0) eqn:E.
    + apply key_eqb_eq in E. subst. exfalso. apply Hn.
      apply (in_map fst) in Hin. exact Hin.
    + apply IH; assumption.
Qed.

Lemma kv_set_keys : forall V (l : list (PodKey * V)) k v x,
  In x (map fst (kv_set l k v)) -> In x (map fst l) \/ x = k.
Proof.
  intros V l k v x. induction l as [|[k0 v0] l IH]; simpl.
  - intros [H|[]]. right; symmetry; exact H.
  - destruct (key_eqb k k0); simpl; [tauto|]. intros [H|H]; [tauto|].
    destruct (IH H); tauto.
Qed.

Lemma kv_set_NoDup : forall V (l : list (PodKey * V)) k v,
  NoDup (map fst l) -> NoDup (map fst (kv_set l k v)).
Proof.
  intros V l k v. induction l as [|[k0 v0] l IH]; simpl; intros Hnd.
  - repeat constructor. intros [].
  - inversion Hnd as [|? ? Hn Hnd']; subst.
    destruct (key_eqb k k0) eqn:E; simpl; constructor; auto.
    intros Hin. apply kv_set_keys in Hin as [Hin|Hin]; [contradiction|].
    subst. rewrite (proj2 (key_eqb_eq _ _) eq_refl) in E. discriminate.
Qed.

Lemma apply_op_labels_NoDup : forall w op,
  NoDup (map fst (w_labels w)) -> NoDup (map fst (w_labels (apply_op w op))).
Proof. intros w [] H; simpl; auto; apply kv_set_NoDup; exact H. Qed.

Lemma fold_apply_labels_NoDup : forall ops w,
  NoDup (map fst (w_labels w)) -> NoDup (map fst (w_labels (fold_left apply_op ops w))).
Proof.
  induction ops as [|op ops IH]; intros w H; simpl; [exact H|].
  apply IH, apply_op_labels_NoDup, H.
Qed.

Lemma kv_get_del_same : forall V (l : list (PodKey * V)) k, kv_get (kv_del l k) k = None.
Proof.
  intros V l k. unfold kv_del. induction l as [|[k0 v0] l IH]; simpl; [reflexivity|].
  destruct (key_eqb k0 k) eqn:E; simpl; [exact IH|].
  destruct (key_eqb k k0) eqn:E'; [|exact IH].
  apply key_eqb_eq in E'. subst. rewrite (proj2 (key_eqb_eq _ _) eq_refl) in E. discriminate.
Qed.

Lemma map_get_delete_same : forall m k, map_get (map_delete m k) k = None.
Proof.
  intros m k. unfold map_delete. induction m as [|[k0 v0] m IH]; simpl; [reflexivity|].
  destruct (String.eqb k0 k) eqn:E; simpl; [exact IH|].
  destruct (String.eqb k k0) eqn:E'; [|exact IH].
  apply String.eqb_eq in E'. subst. rewrite String.eqb_refl in E. discriminate.
Qed.

Lemma map_get_delete_none : forall m k k',
  map_get m k = None -> map_get (map_delete m k') k = None.
Proof.
  intros m k k'. unfold map_delete. induction m as [|[k0 v0] m IH]; simpl; [reflexivity|].
  destruct (String.eqb k k0) eqn:E; [discriminate|]. intros H.
  destruct (negb (String.eqb k0 k')); simpl; [rewrite E|]; apply IH, H.
Qed.

Lemma map_get_deletes : forall ks m k,
  In k ks -> map_get (fold_left map_delete ks m) k = None.
Proof.
  assert (Hnone : forall ks m k, map_get m k = None -> map_get (fold_left map_delete ks m) k = None).
  { induction ks as [|k' ks IH]; intros m k H; simpl; [exact H|].
    apply IH, map_get_delete_none, H. }
  induction ks as [|k' ks IH]; intros m k Hin; simpl; [contradiction|].
  destruct Hin as [<-|Hin]; [apply Hnone, map_get_delete_same|apply IH, Hin].
Qed.

Lemma map_set_key_In : forall m k v, In k (map fst (map_set m k v)).
Proof.
  intros m k v. induction m as [|[k0 v0] m IH]; simpl; [left; reflexivity|].
  destruct (String.eqb k k0) eqn:E; simpl.
  - left. symmetry. apply String.eqb_eq, E.
  - right. exact IH.
Qed.

Lemma RCIDLabel_removed : forall rc, In RCIDLabel (map fst (computePodLabels rc)).
Proof. intros rc. unfold computePodLabels. apply map_set_key_In. Qed.

Lemma computePodLabels_rcid : forall rc, map_get (computePodLabels rc) RCIDLabel = Some (ID rc).
Proof.
  intros rc. unfold computePodLabels. apply map_get_set_same.
Qed.

(** Membership in the answer of [CurrentPods]. *)
Lemma CurrentPods_In : forall rcid w k,
  w_fails w EvGetMatches = false ->
  fst (CurrentPods rcid w) =
    Ok (map fst (filter (fun e => match map_get (snd e) RCIDLabel with
                                  | Some v => String.eqb v rcid
                                  | None => false
                                  end) (w_labels w))) /\
  (In k (map fst (filter (fun e => match map_get (snd e) RCIDLabel with
                                   | Some v => String.eqb v rcid
                                   | None => false
                                   end) (w_labels w))) <->
   exists ls, In (k, ls) (w_labels w) /\ map_get ls RCIDLabel = Some rcid).
Proof.
  intros rcid w k H. unfold CurrentPods. rewrite H. split; [reflexivity|].
  rewrite in_map_iff. split.
  - intros [[k' ls] [E Hin]]. simpl in E. subst k'. apply filter_In in Hin as [Hin Hm].
    exists ls. split; [exact Hin|]. simpl in Hm.
    destruct (map_get ls RCIDLabel) as [v|]; [|discriminate].
    apply String.eqb_eq in Hm. subst. reflexivity.
  - intros [ls [Hin Hm]]. exists (k, ls). split; [reflexivity|].
    apply filter_In. split; [exact Hin|]. simpl. rewrite Hm. apply String.eqb_refl.
Qed.

Lemma commit_world_snoc : forall l x c w,
  commit_world (mkTx (l ++ [x]) c) w = fold_left apply_op (l ++ [x]) (log_ev w (EvTxn (l ++ [x]))).
Proof.
  intros l x c w. unfold commit_world. cbn [kvOps].
  destruct (l ++ [x]) as [|y l'] eqn:E; [destruct l; discriminate|]. reflexivity.
Qed.

(** a [schedule] followed by the audited commit, against a store that
    accepts the transaction, leaves the pod placed on the node: its intent is
    the RC's manifest, its labels are the computed pod labels, and the
    node's pod is among those [CurrentPods] reports for the RC. *)
Theorem schedule_commit_places_pod : forall rc a node w,
  committed (at_tx a) = false -> length (kvOps (at_tx a)) + 3 <= 64 ->
  (forall k ops, w_txner w k ops = CallOK) -> w_fails w EvGetMatches = false ->
  let key := (node, man_id (RC_Manifest rc)) in
  let r := (a' <- schedule rc a node ;; auditCommit (ID rc) a') w in
  fst r = Ok true /\
  kv_get (w_intent (snd r)) key = Some (RC_Manifest rc) /\
  kv_get (w_labels (snd r)) key = Some (computePodLabels rc) /\
  exists l, fst (CurrentPods (ID rc) (snd r)) = Ok l /\ In key l.
Proof.
  intros rc a node w Hc Hl Ht Hg key r. subst r.
  erewrite bind_ok; [|apply schedule_ok; [exact Hc|lia]].
  rewrite auditCommit_ok by (simpl; try rewrite length_app; simpl; try lia; exact Ht).
  simpl kvOps. rewrite commit_world_snoc, fold_left_app. simpl.
  rewrite fold_left_app. simpl.
  set (W := fold_left apply_op (kvOps (at_tx a)) _).
  split; [reflexivity|]. split; [apply kv_get_set_same|].
  assert (HL : kv_get (kv_set (w_labels W) key (computePodLabels rc)) key =
               Some (computePodLabels rc)) by apply kv_get_set_same.
  split; [exact HL|].
  destruct (CurrentPods_In (ID rc)
              (mkWorld (kv_set (w_labels W) key (computePodLabels rc))
                 (kv_set (w_intent W) key (RC_Manifest rc)) (w_status W) (w_eligible W)
                 (w_alloc W) (w_fails W) (w_txner W) (w_log W)) key) as [E I].
  { simpl. unfold W. rewrite (proj1 (fold_apply_oracles _ _)). exact Hg. }
  eexists. split; [exact E|]. apply I. exists (computePodLabels rc).
  split; [apply kv_get_In, HL|apply computePodLabels_rcid].
Qed.

Lemma schedule_commit_places_pod_witness :
  let rc := ex_rc false CattleStrategy 1 in
  let w := ex_world [] [] None [] in
  let key := ("n1", man_id (RC_Manifest rc)) in
  let r := (a' <- schedule rc (newAuditingTransaction []) "n1" ;; auditCommit (ID rc) a') w in
  fst r = Ok true /\
  kv_get (w_intent (snd r)) key = Some (RC_Manifest rc) /\
  kv_get (w_labels (snd r)) key = Some (computePodLabels rc) /\
  exists l, fst (CurrentPods (ID rc) (snd r)) = Ok l /\ In key l.
Proof.
  apply (schedule_commit_places_pod (ex_rc false CattleStrategy 1) (newAuditingTransaction [])
           "n1" (ex_world [] [] None [])).
  - reflexivity.
  - simpl. lia.
  - intros k ops. reflexivity.
  - reflexivity.
Defined.

Lemma pod_listed : forall rcid w k ls,
  w_fails w EvGetMatches = false ->
  kv_get (w_labels w) k = Some ls -> map_get ls RCIDLabel = Some rcid ->
  exists l, fst (CurrentPods rcid w) = Ok l /\ In k l.
Proof.
  intros rcid w k ls Hg Hk Hm. destruct (CurrentPods_In rcid w k Hg) as [E I].
  eexists. split; [exact E|]. apply I. exists ls. split; [apply kv_get_In, Hk|exact Hm].
Qed.

Lemma pod_not_listed : forall rcid w k l,
  NoDup (map fst (w_labels w)) ->
  (forall ls, kv_get (w_labels w) k = Some ls -> map_get ls RCIDLabel = None) ->
  fst (CurrentPods rcid w) = Ok l -> ~ In k l.
Proof.
  intros rcid w k l Hnd Hk Hl Hin. unfold CurrentPods in Hl.
  destruct (w_fails w EvGetMatches) eqn:Hg; [discriminate|].
  destruct (CurrentPods_In rcid w k Hg) as [E I].
  unfold CurrentPods in E. rewrite Hg in E. rewrite E in Hl. injection Hl as <-.
  apply I in Hin as [ls [Hin Hm]]. rewrite (Hk ls (NoDup_kv_get _ _ _ _ Hnd Hin)) in Hm.
  discriminate.
Qed.

Lemma unschedule_ok : forall rc a node w,
  committed (at_tx a) = false -> length (kvOps (at_tx a)) + 2 <= 64 ->
  unschedule rc a node w =
  (Ok (RemoveNode (withTx a (mkTx (kvOps (at_tx a) ++ unschedule_ops rc node) false)) node),
   log_ev w (EvUnscheduling node)).
Proof.
  intros rc a node w Hc Hl. unfold unschedule.
  erewrite bind_ok; [|reflexivity]. cbv beta.
  erewrite bind_ok; [|apply addT_ok; [exact Hc|lia]]. cbv beta.
  erewrite bind_ok; [|apply addT_ok; [reflexivity|simpl; rewrite length_app; simpl; lia]].
  unfold ret. simpl. rewrite <- app_assoc. reflexivity.
Qed.

(** an [unschedule] followed by the audited commit, against a store that
    accepts the transaction and whose label tree holds one record per key,
    removes the pod from the node: its intent is gone and [CurrentPods] no
    longer reports it for the RC. *)
Theorem unschedule_commit_removes_pod : forall rc a node w,
  committed (at_tx a) = false -> length (kvOps (at_tx a)) + 3 <= 64 ->
  (forall k ops, w_txner w k ops = CallOK) -> w_fails w EvGetMatches = false ->
  NoDup (map fst (w_labels w)) ->
  let key := (node, man_id (RC_Manifest rc)) in
  let r := (a' <- unschedule rc a node ;; auditCommit (ID rc) a') w in
  fst r = Ok true /\
  kv_get (w_intent (snd r)) key = None /\
  exists l, fst (CurrentPods (ID rc) (snd r)) = Ok l /\ ~ In key l.
Proof.
  intros rc a node w Hc Hl Ht Hg Hnd key r. subst r.
  erewrite bind_ok; [|apply unschedule_ok; [exact Hc|lia]].
  rewrite auditCommit_ok by (simpl; try rewrite length_app; simpl; try lia; exact Ht).
  simpl kvOps. rewrite commit_world_snoc.
  set (Wf := fold_left apply_op _ _).
  assert (Hnd' : NoDup (map fst (w_labels Wf))) by (apply fold_apply_labels_NoDup; exact Hnd).
  assert (Hg' : w_fails Wf EvGetMatches = false)
    by (unfold Wf; rewrite (proj1 (fold_apply_oracles _ _)); exact Hg).
  set (Wp := fold_left apply_op (kvOps (at_tx a)) (log_ev (log_ev w (EvUnscheduling node))
               (EvTxn ((kvOps (at_tx a) ++ unschedule_ops rc node) ++
                       [audit_op (ID rc) (RemoveNode (withTx a (mkTx (kvOps (at_tx a) ++
                          unschedule_ops rc node) false)) node)])))).
  assert (Hint : w_intent Wf = kv_del (w_intent Wp) key)
    by (unfold Wf, Wp; rewrite !fold_left_app; reflexivity).
  assert (Hlab : w_labels Wf =
                 kv_set (w_labels Wp) key
                   (fold_left map_delete (map fst (computePodLabels rc))
                      (match kv_get (w_labels Wp) key with Some ls => ls | None => [] end)))
    by (unfold Wf, Wp; rewrite !fold_left_app; reflexivity).
  cbn [fst snd]. split; [reflexivity|]. split; [rewrite Hint; apply kv_get_del_same|].
  destruct (CurrentPods (ID rc) Wf) as [[l|e] w'] eqn:E.
  - exists l. split; [reflexivity|]. apply (pod_not_listed (ID rc) Wf); [exact Hnd'| |].
    + intros ls Hk. rewrite Hlab, kv_get_set_same in Hk. injection Hk as <-.
      apply map_get_deletes, RCIDLabel_removed.
    + rewrite E. reflexivity.
  - unfold CurrentPods in E. rewrite Hg' in E. discriminate.
Qed.

Lemma unschedule_commit_removes_pod_witness :
  let rc := ex_rc false CattleStrategy 1 in
  let w := ex_world [(("n1", "app"), computePodLabels rc)] [(("n1", "app"), ex_manifest)]
                    None [] in
  let key := ("n1", man_id (RC_Manifest rc)) in
  let r := (a' <- unschedule rc (newAuditingTransaction ["n1"]) "n1" ;; auditCommit (ID rc) a') w in
  fst r = Ok true /\
  kv_get (w_intent (snd r)) key = None /\
  exists l, fst (CurrentPods (ID rc) (snd r)) = Ok l /\ ~ In key l.
Proof.
  apply (unschedule_commit_removes_pod (ex_rc false CattleStrategy 1)
           (newAuditingTransaction ["n1"]) "n1"
           (ex_world [(("n1", "app"), computePodLabels (ex_rc false CattleStrategy 1))]
                     [(("n1", "app"), ex_manifest)] None [])).
  - reflexivity.
  - simpl. lia.
  - intros k ops. reflexivity.
  - reflexivity.
  - simpl. constructor; [intros []|constructor].
Defined.

Lemma scheduleWithoutLabel_ok : forall rc n w,
  (forall k ops, w_txner w k ops = CallOK) ->
  scheduleWithoutLabel rc n w =
  (Ok tt, commit_world (mkTx [OpSetIntent n (RC_Manifest rc)] false) (log_ev w (EvScheduling n))).
Proof.
  intros rc n w Ht. unfold scheduleWithoutLabel.
  erewrite bind_ok; [|reflexivity]. cbv beta.
  erewrite bind_ok; [|apply addT_ok; [reflexivity|simpl; lia]]. cbv beta.
  erewrite bind_ok; [|apply commit_all_ok; [reflexivity|exact Ht]]. reflexivity.
Qed.

(** the two halves of a node transfer, [scheduleWithoutLabel] on the new
    node and then [finalizeCompleteTransfer] from the old node, against a
    store that accepts every transaction and whose label tree holds one
    record per key, move the RC's pod: the intent is on the new node and no
    longer on the old one, and [CurrentPods] reports the pod on the new node
    and not on the old one. *)
Theorem node_transfer_moves_pod : forall rc n1 n2 w,
  n1 <> n2 ->
  (forall k ops, w_txner w k ops = CallOK) -> w_fails w EvGetMatches = false ->
  NoDup (map fst (w_labels w)) ->
  let p := man_id (RC_Manifest rc) in
  let r := (_ <- scheduleWithoutLabel rc n2 ;; finalizeCompleteTransfer rc n1 n2) w in
  fst r = Ok tt /\
  kv_get (w_intent (snd r)) (n2, p) = Some (RC_Manifest rc) /\
  kv_get (w_intent (snd r)) (n1, p) = None /\
  exists l, fst (CurrentPods (ID rc) (snd r)) = Ok l /\ In (n2, p) l /\ ~ In (n1, p) l.
Proof.
  intros rc n1 n2 w Hne Ht Hg Hnd p r. subst r.
  erewrite bind_ok; [|apply scheduleWithoutLabel_ok; exact Ht]. cbv beta.
  unfold finalizeCompleteTransfer.
  erewrite bind_ok; [|unfold CurrentPods; simpl; rewrite Hg; reflexivity]. cbv beta.
  erewrite bind_ok; [|apply addT_ok; [reflexivity|simpl; lia]]. cbv beta.
  erewrite bind_ok; [|apply unschedule_ok; [reflexivity|simpl; lia]].
  erewrite bind_ok; [|apply auditCommit_ok; [reflexivity|simpl; lia|exact Ht]].
  unfold okOrRollback, ret. cbn [fst snd].
  match goal with |- context [commit_world ?t ?w0] => set (Wf := commit_world t w0) end.
  assert (Hint : w_intent Wf = kv_del (kv_set (w_intent w) (n2, p) (RC_Manifest rc)) (n1, p))
    by reflexivity.
  assert (Hlab : exists ls, w_labels Wf =
            kv_set (kv_set (w_labels w) (n2, p) (computePodLabels rc)) (n1, p)
                   (fold_left map_delete (map fst (computePodLabels rc)) ls))
    by (eexists; reflexivity).
  destruct Hlab as [ls0 Hlab].
  assert (Hg' : w_fails Wf EvGetMatches = false) by exact Hg.
  assert (Hn : fst (n2, p) <> fst (n1, p)) by (simpl; congruence).
  split; [reflexivity|].
  split; [rewrite Hint, kv_get_del_other by exact Hn; apply kv_get_set_same|].
  split; [rewrite Hint; apply kv_get_del_same|].
  assert (H2 : kv_get (w_labels Wf) (n2, p) = Some (computePodLabels rc))
    by (rewrite Hlab, kv_get_set_other by exact Hn; apply kv_get_set_same).
  destruct (pod_listed (ID rc) Wf (n2, p) _ Hg' H2 (computePodLabels_rcid rc)) as [l [E I]].
  exists l. split; [exact E|]. split; [exact I|].
  apply (pod_not_listed (ID rc) Wf); [| |exact E].
  - rewrite Hlab. apply kv_set_NoDup, kv_set_NoDup, Hnd.
  - intros ls Hk. rewrite Hlab, kv_get_set_same in Hk. injection Hk as <-.
    apply map_get_deletes, RCIDLabel_removed.
Qed.

Lemma node_transfer_moves_pod_witness :
  let rc := ex_rc false CattleStrategy 1 in
  let w := ex_world [(("n1", "app"), computePodLabels rc)] [(("n1", "app"), ex_manifest)]
                    (Some (mkNodeTransfer "n1" "n2")) ["n2"] in
  let p := man_id (RC_Manifest rc) in
  let r := (_ <- scheduleWithoutLabel rc "n2" ;; finalizeCompleteTransfer rc "n1" "n2") w in
  fst r = Ok tt /\
  kv_get (w_intent (snd r)) ("n2", p) = Some (RC_Manifest rc) /\
  kv_get (w_intent (snd r)) ("n1", p) = None /\
  exists l, fst (CurrentPods (ID rc) (snd r)) = Ok l /\ In ("n2", p) l /\ ~ In ("n1", p) l.
Proof.
  apply (node_transfer_moves_pod (ex_rc false CattleStrategy 1) "n1" "n2"
           (ex_world [(("n1", "app"), computePodLabels (ex_rc false CattleStrategy 1))]
                     [(("n1", "app"), ex_manifest)] (Some (mkNodeTransfer "n1" "n2")) ["n2"])).
  - discriminate.
  - intros k ops. reflexivity.
  - reflexivity.
  - simpl. constructor; [intros []|constructor].
Defined.

(* ------------------------------------------------------------------------- *)
(** ** Batches of five stay far below the operation limit *)

(** [HX P E m Q]: as [HExt], and a failure satisfies [E]. *)
Definition HX {A} (P : Event -> Prop) (E : Err -> Prop) (m : M A) (Q : A -> Prop) : Prop :=
  forall w, exists evs, w_log (snd (m w)) = w_log w ++ evs /\ Forall P evs /\
    oracles_same w (snd (m w)) /\
    match fst (m w) with Ok a => Q a | Fail e => E e end.

Lemma HX_ret : forall A P E (a : A) (Q : A -> Prop), Q a -> HX P E (ret a) Q.
Proof. intros A P E a Q Ha w. exists []. rewrite app_nil_r. repeat split; auto. Qed.

Lemma HX_fail : forall A P (E : Err -> Prop) e (Q : A -> Prop), E e -> HX P E (fail e) Q.
Proof. intros A P E e Q He w. exists []. rewrite app_nil_r. repeat split; auto. Qed.

Lemma HX_bind : forall A B P E (m : M A) (k : A -> M B) Q1 Q2,
  HX P E m Q1 -> (forall a, Q1 a -> HX P E (k a) Q2) -> HX P E (bind m k) Q2.
Proof.
  intros A B P E m k Q1 Q2 Hm Hk w. unfold bind.
  destruct (Hm w) as [evs1 [L1 [F1 [[O1 O1'] R1]]]].
  destruct (m w) as [[a|e] w1] eqn:Em; simpl in *.
  - destruct (Hk a R1 w1) as [evs2 [L2 [F2 [[O2 O2'] R2]]]].
    exists (evs1 ++ evs2). rewrite L2, L1, app_assoc.
    repeat split; auto; [apply Forall_app; auto|congruence|congruence].
  - exists evs1. repeat split; auto.
Qed.

Lemma HX_emit : forall (P : Event -> Prop) E e, P e -> HX P E (emit e) (fun _ => True).
Proof. intros P E e He w. exists [e]. simpl. repeat split; auto. Qed.

Lemma HX_interact : forall (P : Event -> Prop) E e, P e -> HX P E (interact e) (fun _ => True).
Proof. intros P E e He w. exists [e]. simpl. repeat split; auto. Qed.

Lemma HX_addT : forall P E t op,
  committed t = false -> length (kvOps t) < 64 ->
  HX P E (addT t op) (fun t' => t' = mkTx (kvOps t ++ [op]) false).
Proof.
  intros P E t op Hc Hl w. rewrite addT_ok by assumption. apply HX_ret. reflexivity.
Qed.

Lemma HX_commit : forall (P : Event -> Prop) (E : Err -> Prop) t,
  committed t = false -> P (EvTxn (kvOps t)) -> E ErrTransport ->
  HX P E (commit t) (fun _ => True).
Proof.
  intros P E t Hc Hp He w. unfold commit. rewrite Hc.
  destruct (kvOps t) as [|op ops] eqn:Ek; [apply HX_ret; exact I|].
  revert w. apply HX_bind with (Q1 := fun _ => True).
  - intros w. destruct (HExt_store_txn P (op :: ops) Hp w) as [evs [L [F [O _]]]].
    exists evs. split; [exact L|]. split; [exact F|]. split; [exact O|].
    unfold store_txn. exact I.
  - intros [| |] _; [apply HX_ret; exact I|apply HX_ret; exact I|apply HX_fail; exact He].
Qed.

Lemma HX_okOrRollback : forall P (E : Err -> Prop) ok,
  E ErrRollback -> HX P E (okOrRollback ok) (fun _ => True).
Proof. intros P E [] He; [apply HX_ret; exact I|apply HX_fail; exact He]. Qed.

Lemma HX_podIntent : forall (P : Event -> Prop) (E : Err -> Prop) n p,
  P (EvPodRead n p) -> E ErrRead -> HX P E (podIntent n p) (fun _ => True).
Proof.
  intros P E n p Hp He w. exists [EvPodRead n p]. unfold podIntent.
  destruct (w_fails w (EvPodRead n p)); simpl; repeat split; auto.
Qed.

Lemma HX_auditCommit : forall (P : Event -> Prop) (E : Err -> Prop) rcid a,
  committed (at_tx a) = false -> length (kvOps (at_tx a)) < 64 ->
  P (EvTxn (kvOps (at_tx a) ++ [audit_op rcid a])) -> E ErrTransport ->
  HX P E (auditCommit rcid a) (fun _ => True).
Proof.
  intros P E rcid a Hc Hl Hp He. unfold auditCommit.
  eapply HX_bind; [apply HX_addT; assumption|]. intros t ->.
  apply HX_commit; [reflexivity|exact Hp|exact He].
Qed.

Lemma HX_schedule : forall (P : Event -> Prop) E rc a node,
  committed (at_tx a) = false -> length (kvOps (at_tx a)) + 2 <= 64 -> P (EvScheduling node) ->
  HX P E (schedule rc a node)
     (fun a' => length (kvOps (at_tx a')) = length (kvOps (at_tx a)) + 2 /\
                committed (at_tx a') = false).
Proof.
  intros P E rc a node Hc Hl Hp w. rewrite schedule_ok by assumption.
  exists [EvScheduling node]. simpl. repeat split; auto. rewrite length_app. reflexivity.
Qed.

Lemma HX_unschedule : forall (P : Event -> Prop) E rc a node,
  committed (at_tx a) = false -> length (kvOps (at_tx a)) + 2 <= 64 -> P (EvUnscheduling node) ->
  HX P E (unschedule rc a node)
     (fun a' => length (kvOps (at_tx a')) = length (kvOps (at_tx a)) + 2 /\
                committed (at_tx a') = false).
Proof.
  intros P E rc a node Hc Hl Hp w. rewrite unschedule_ok by assumption.
  exists [EvUnscheduling node]. simpl. repeat split; auto. rewrite length_app. reflexivity.
Qed.

Lemma HX_scheduleNoAudit : forall (P : Event -> Prop) E rc t node,
  committed t = false -> length (kvOps t) + 2 <= 64 -> P (EvScheduling node) ->
  HX P E (scheduleNoAudit rc t node)
     (fun t' => length (kvOps t') = length (kvOps t) + 2 /\ committed t' = false).
Proof.
  intros P E rc t node Hc Hl Hp w. rewrite scheduleNoAudit_ok by assumption.
  exists [EvScheduling node]. simpl. repeat split; auto. rewrite length_app. reflexivity.
Qed.

(** The transactions sent hold at most [n] operations. *)
Definition txn_within (n : nat) (e : Event) : Prop :=
  match e with EvTxn ops => length ops <= n | _ => True end.

(** Any failure but the operation-limit error. *)
Definition no_overflow (e : Err) : Prop := e <> ErrTxn ErrTooManyOperations.

Lemma HX_ap_stage : forall rc i txn,
  committed (at_tx txn) = false -> length (kvOps (at_tx txn)) <= 2 * batch_bound i ->
  HX (txn_within 11) no_overflow (ap_stage rc i txn)
     (fun txn1 => committed (at_tx txn1) = false /\ length (kvOps (at_tx txn1)) <= 2 * (i mod 5)).
Proof.
  intros rc i txn Hc Hl. pose proof (batch_bound_le i). unfold ap_stage.
  destruct (batchBoundary i) eqn:B.
  - eapply HX_bind; [apply HX_auditCommit; [exact Hc|lia|simpl; rewrite length_app; simpl; lia|
                                            discriminate]|].
    intros ok _. eapply HX_bind; [apply HX_okOrRollback; discriminate|]. intros _ _.
    apply HX_ret. simpl. split; [reflexivity|lia].
  - apply HX_ret. rewrite batch_bound_not_boundary in Hl by exact B. auto.
Qed.

Lemma addPods_loop_fits : forall rc ps fuel i txn,
  committed (at_tx txn) = false -> length (kvOps (at_tx txn)) <= 2 * batch_bound i ->
  HX (txn_within 11) no_overflow (addPods_loop rc ps fuel i txn) (fun _ => True).
Proof.
  intros rc ps fuel. induction fuel as [|fuel IH]; intros i txn Hc Hl;
    pose proof (batch_bound_le i).
  - simpl. eapply HX_bind; [apply HX_auditCommit; [exact Hc|lia|simpl; rewrite length_app; simpl; lia|
                                                   discriminate]|].
    intros ok _. apply HX_okOrRollback. discriminate.
  - rewrite addPods_loop_S. eapply HX_bind; [apply HX_ap_stage; assumption|].
    intros txn1 [Hc1 Hl1]. pose proof (Nat.mod_upper_bound i 5).
    destruct (nth_error ps i) as [n|].
    + eapply HX_bind; [apply HX_schedule; [exact Hc1|lia|exact I]|].
      intros txn2 [Hl2 Hc2]. apply IH; [exact Hc2|].
      pose proof (batch_bound_S i). lia.
    + eapply HX_bind; [apply HX_interact; exact I|]. intros _ _.
      eapply HX_bind; [apply HX_auditCommit; [exact Hc1|lia|simpl; rewrite length_app; simpl; lia|
                                              discriminate]|].
      intros ok _. eapply HX_bind; [apply HX_okOrRollback; discriminate|]. intros _ _.
      apply HX_fail. discriminate.
Qed.

Lemma removePods_loop_fits : forall pick rc fuel i preferred rest txn,
  committed (at_tx txn) = false -> length (kvOps (at_tx txn)) <= 2 * batch_bound i ->
  HX (txn_within 11) no_overflow (removePods_loop pick rc fuel i preferred rest txn)
     (fun _ => True).
Proof.
  intros pick rc fuel. induction fuel as [|fuel IH]; intros i preferred rest txn Hc Hl;
    pose proof (batch_bound_le i).
  - simpl. eapply HX_bind; [apply HX_auditCommit; [exact Hc|lia|simpl; rewrite length_app; simpl; lia|
                                                   discriminate]|].
    intros ok _. apply HX_okOrRollback. discriminate.
  - rewrite removePods_loop_S. eapply HX_bind; [apply HX_ap_stage; assumption|].
    intros txn1 [Hc1 Hl1]. pose proof (Nat.mod_upper_bound i 5). pose proof (batch_bound_S i).
    destruct (PopAny pick preferred) as [[x preferred']|].
    + eapply HX_bind; [apply HX_unschedule; [exact Hc1|lia|exact I]|].
      intros txn2 [Hl2 Hc2]. apply IH; [exact Hc2|lia].
    + destruct (PopAny pick rest) as [[x rest']|].
      * eapply HX_bind; [apply HX_unschedule; [exact Hc1|lia|exact I]|].
        intros txn2 [Hl2 Hc2]. apply IH; [exact Hc2|lia].
      * eapply HX_bind; [apply HX_auditCommit; [exact Hc1|lia|simpl; rewrite length_app; simpl; lia|
                                                discriminate]|].
        intros ok _. eapply HX_bind; [apply HX_okOrRollback; discriminate|]. intros _ _.
        apply HX_fail. discriminate.
Qed.

Lemma ensureConsistency_loop_fits : forall SHA rc msha pods i t,
  committed t = false -> length (kvOps t) <= 2 * batch_bound i ->
  HX (txn_within 10) no_overflow (ensureConsistency_loop SHA rc msha pods i t) (fun _ => True).
Proof.
  intros SHA rc msha pods. induction pods as [|pod pods IH]; intros i t Hc Hl;
    pose proof (batch_bound_le i).
  - simpl. eapply HX_bind; [apply HX_commit; [exact Hc|simpl; lia|discriminate]|].
    intros ok _. apply HX_okOrRollback. discriminate.
  - rewrite ensureConsistency_loop_cons.
    pose proof (Nat.mod_upper_bound i 5). pose proof (batch_bound_S i).
    eapply HX_bind with (Q1 := fun t1 => committed t1 = false /\ length (kvOps t1) <= 2 * (i mod 5)).
    { unfold ec_stage. destruct (batchBoundary i) eqn:B.
      - eapply HX_bind; [apply HX_commit; [exact Hc|simpl; lia|discriminate]|]. intros ok _.
        eapply HX_bind; [apply HX_okOrRollback; discriminate|]. intros _ _.
        apply HX_ret. simpl. split; [reflexivity|lia].
      - apply HX_ret. rewrite batch_bound_not_boundary in Hl by exact B. auto. }
    intros t1 [Hc1 Hl1].
    eapply HX_bind; [apply HX_podIntent; [exact I|discriminate]|]. intros intent _.
    destruct (intentConsistent SHA msha intent).
    + apply IH; [exact Hc1|lia].
    + eapply HX_bind; [apply HX_scheduleNoAudit; [exact Hc1|lia|exact I]|].
      intros t2 [Hl2 Hc2]. apply IH; [exact Hc2|lia].
Qed.

Lemma HX_txns : forall A n (m : M A) Q w,
  HX (txn_within n) no_overflow m Q ->
  exists evs, w_log (snd (m w)) = w_log w ++ evs /\
    (forall ops, In (EvTxn ops) evs -> length ops <= n) /\
    fst (m w) <> Fail (ErrTxn ErrTooManyOperations).
Proof.
  intros A n m Q w H. destruct (H w) as [evs [L [F [_ R]]]].
  exists evs. split; [exact L|]. split.
  - intros ops Hin. rewrite Forall_forall in F. exact (F _ Hin).
  - destruct (fst (m w)) as [a|e]; [discriminate|]. intros E. injection E as ->. apply R. reflexivity.
Qed.

(** [addPods] commits every five pods: each transaction it sends holds at
    most eleven operations (five label and intent write pairs and the audit
    record), far below the store's limit of 64, and the pass never fails
    with the too-many-operations error. *)
Theorem addPods_batches_fit : forall rc current eligible w,
  exists evs, w_log (snd (addPods rc current eligible w)) = w_log w ++ evs /\
    (forall ops, In (EvTxn ops) evs -> length ops <= 11) /\
    fst (addPods rc current eligible w) <> Fail (ErrTxn ErrTooManyOperations).
Proof.
  intros rc current eligible w. apply (HX_txns _ 11 _ (fun _ => True)).
  unfold addPods. apply addPods_loop_fits; reflexivity.
Qed.

(** [removePods] commits every five pods: each transaction it sends holds
    at most eleven operations (five intent deletes and label removals and
    the audit record), and the pass never fails with the too-many-operations
    error. *)
Theorem removePods_batches_fit : forall pick rc current eligible w,
  exists evs, w_log (snd (removePods pick rc current eligible w)) = w_log w ++ evs /\
    (forall ops, In (EvTxn ops) evs -> length ops <= 11) /\
    fst (removePods pick rc current eligible w) <> Fail (ErrTxn ErrTooManyOperations).
Proof.
  intros pick rc current eligible w. apply (HX_txns _ 11 _ (fun _ => True)).
  unfold removePods. apply removePods_loop_fits; reflexivity.
Qed.

(** [ensureConsistency] commits every five placements: each transaction
    it sends holds at most ten operations (five label and intent write
    pairs), and the pass never fails with the too-many-operations error. *)
Theorem ensureConsistency_batches_fit : forall SHA rc current w,
  exists evs, w_log (snd (ensureConsistency SHA rc current w)) = w_log w ++ evs /\
    (forall ops, In (EvTxn ops) evs -> length ops <= 10) /\
    fst (ensureConsistency SHA rc current w) <> Fail (ErrTxn ErrTooManyOperations).
Proof.
  intros SHA rc current w. apply (HX_txns _ 10 _ (fun _ => True)).
  unfold ensureConsistency. destruct (SHA (RC_Manifest rc)) as [msha|].
  - apply ensureConsistency_loop_fits; reflexivity.
  - apply HX_fail. discriminate.
Qed.

(* ------------------------------------------------------------------------- *)
(** ** Complete runs of addPods and removePods *)

(** A run of the [addPods] loop from iteration [i] with enough candidates,
    against a store that accepts every transaction. *)
Lemma addPods_loop_full : forall rc ps fuel i txn w,
  (forall k ops, w_txner w k ops = CallOK) ->
  committed (at_tx txn) = false ->
  length (kvOps (at_tx txn)) <= 2 * batch_bound i ->
  i + fuel <= length ps ->
  fst (addPods_loop rc ps fuel i txn w) = Ok tt /\
  exists evs, w_log (snd (addPods_loop rc ps fuel i txn w)) = w_log w ++ evs /\
    filter is_alert evs = [] /\ sched_nodes evs = firstn fuel (skipn i ps) /\
    strip_audits (txn_ops evs) =
      strip_audits (kvOps (at_tx txn)) ++ flat_map (schedule_ops rc) (firstn fuel (skipn i ps)).
Proof.
  intros rc ps fuel. induction fuel as [|fuel IH]; intros i txn w Ht Hc Hl Hf;
    pose proof (batch_bound_le i).
  - simpl. erewrite bind_ok; [|apply auditCommit_ok; [exact Hc|lia|exact Ht]]. simpl.
    split; [reflexivity|].
    exists [EvTxn (kvOps (at_tx txn) ++ [audit_op (ID rc) txn])].
    rewrite commit_world_snoc_log. split; [reflexivity|]. split; [reflexivity|].
    split; [reflexivity|]. simpl. rewrite !app_nil_r, strip_audits_app. simpl.
    rewrite app_nil_r. reflexivity.
  - rewrite addPods_loop_S.
    destruct (ap_stage_ok rc i txn w Hc Hl Ht)
      as (txn1 & w1 & pre1 & Hrun & L1 & A1 & S1 & P1 & Hc1 & Hl1 & [O1 O1']).
    erewrite bind_ok; [|exact Hrun]. cbv beta.
    assert (Ht1 : forall k ops, w_txner w1 k ops = CallOK) by (intros; rewrite O1'; auto).
    pose proof (Nat.mod_upper_bound i 5) as Hmod.
    destruct (nth_error ps i) as [n|] eqn:N;
      [|apply nth_error_None in N; lia].
    erewrite bind_ok; [|apply schedule_ok; [exact Hc1|lia]].
    destruct (IH (S i) (AddNode (withTx txn1 (mkTx (kvOps (at_tx txn1) ++ schedule_ops rc n) false)) n)
                 (log_ev w1 (EvScheduling n)) Ht1 eq_refl) as [R [evs [L [A [S P]]]]].
    { simpl. rewrite length_app. simpl. pose proof (batch_bound_S i). lia. }
    { lia. }
    split; [exact R|]. exists (pre1 ++ EvScheduling n :: evs).
    rewrite L. simpl. rewrite L1, <- !app_assoc. split; [reflexivity|].
    rewrite filter_app. simpl. rewrite A1, A. split; [reflexivity|].
    rewrite (skipn_nth_error _ ps i n N). cbn [firstn flat_map].
    rewrite sched_nodes_app, S1.
    change (sched_nodes (EvScheduling n :: evs)) with (n :: sched_nodes evs).
    rewrite S. split; [reflexivity|].
    rewrite txn_ops_app, strip_audits_app.
    change (txn_ops (EvScheduling n :: evs)) with (txn_ops evs). rewrite P.
    cbn [at_tx AddNode withTx kvOps].
    rewrite strip_audits_app, strip_schedule_ops, <- P1, <- !app_assoc. reflexivity.
Qed.

(** an [addPods] pass with at least as many candidates as pods to
    schedule, against a store that accepts every transaction, succeeds
    without an alert: it schedules exactly the first [desired - current]
    candidates in order, and their label and intent writes are exactly what
    reaches the store besides the audit records. *)
Theorem addPods_fills_when_enough_candidates : forall rc current eligible w,
  (ReplicasDesired rc - Z.of_nat (length current)
     <= Z.of_nat (length (addPodsCandidates current eligible)))%Z ->
  (forall k ops, w_txner w k ops = CallOK) ->
  let k := Z.to_nat (ReplicasDesired rc - Z.of_nat (length current)) in
  fst (addPods rc current eligible w) = Ok tt /\
  exists evs, w_log (snd (addPods rc current eligible w)) = w_log w ++ evs /\
    filter is_alert evs = [] /\
    sched_nodes evs = firstn k (addPodsCandidates current eligible) /\
    strip_audits (txn_ops evs) = flat_map (schedule_ops rc) (firstn k (addPodsCandidates current eligible)).
Proof.
  intros rc current eligible w Hle Ht k. unfold addPods. rewrite length_map.
  destruct (addPods_loop_full rc (addPodsCandidates current eligible) k 0
              (newAuditingTransaction (map fst current)) w Ht eq_refl (le_0_n _))
    as [R [evs [L [A [S P]]]]]; [unfold k; lia|].
  split; [exact R|]. exists evs. exact (conj L (conj A (conj S P))).
Qed.

Lemma addPods_fills_when_enough_candidates_witness :
  let rc := ex_rc false CattleStrategy 2 in
  let w := ex_world [] [] None ["n3"; "n1"; "n2"] in
  let cur := [("n2", "app")] in
  let k := Z.to_nat (ReplicasDesired rc - Z.of_nat (length cur)) in
  (ReplicasDesired rc - Z.of_nat (length cur)
     <= Z.of_nat (length (addPodsCandidates cur ["n3"; "n1"; "n2"])))%Z /\
  (fst (addPods rc cur ["n3"; "n1"; "n2"] w) = Ok tt /\
   exists evs, w_log (snd (addPods rc cur ["n3"; "n1"; "n2"] w)) = w_log w ++ evs /\
     filter is_alert evs = [] /\
     sched_nodes evs = firstn k (addPodsCandidates cur ["n3"; "n1"; "n2"]) /\
     strip_audits (txn_ops evs) =
       flat_map (schedule_ops rc) (firstn k (addPodsCandidates cur ["n3"; "n1"; "n2"]))).
Proof.
  cbv zeta. split; [vm_compute; discriminate|].
  apply (addPods_fills_when_enough_candidates (ex_rc false CattleStrategy 2) [("n2", "app")]
           ["n3"; "n1"; "n2"] (ex_world [] [] None ["n3"; "n1"; "n2"])).
  - vm_compute. discriminate.
  - intros k ops. reflexivity.
Defined.

Lemma strip_unschedule_ops : forall rc n,
  strip_audits (unschedule_ops rc n) = unschedule_ops rc n.
Proof. reflexivity. Qed.

Lemma ap_stage_quiet : forall rc i txn w txn1 w1 pre,
  ap_stage rc i txn w = (Ok txn1, w1) -> w_log w1 = w_log w ++ pre ->
  sched_nodes pre = [] /\ unsched_nodes pre = [].
Proof.
  intros rc i txn w txn1 w1 pre Hrun L.
  destruct (HExt_ap_stage rc i txn w) as [evs [L' [F _]]].
  rewrite Hrun in L'. simpl in L'. rewrite L in L'. apply app_inv_head in L'. subst.
  apply quiet_nodes, F.
Qed.

Lemma pop_combine : forall (x : NodeName) AB AB' u,
  Permutation AB (x :: AB') -> NoDup AB ->
  NoDup AB' /\ length AB = S (length AB') /\
  (NoDup u -> incl u AB' -> NoDup (x :: u) /\ incl (x :: u) AB) /\
  (Permutation u AB' -> Permutation (x :: u) AB).
Proof.
  intros x AB AB' u Hp Hnd.
  assert (Hnd' : NoDup (x :: AB')) by (eapply Permutation_NoDup; eauto).
  inversion Hnd' as [|? ? Hx Hnd'']; subst.
  split; [exact Hnd''|]. split; [apply Permutation_length in Hp; exact Hp|]. split.
  - intros Hu Hi. split.
    + constructor; [intros Hin; apply Hx, Hi, Hin|exact Hu].
    + intros y [<-|Hy]; apply (Permutation_in _ (Permutation_sym Hp)); [left; reflexivity|].
      right. apply Hi, Hy.
  - intros Hu. eapply Permutation_trans; [apply perm_skip, Hu|apply Permutation_sym, Hp].
Qed.

(** A run of the [removePods] loop from iteration [i] against a store that
    accepts every transaction. *)
Lemma removePods_loop_full : forall pick rc fuel i preferred rest txn w,
  (forall k ops, w_txner w k ops = CallOK) ->
  committed (at_tx txn) = false ->
  length (kvOps (at_tx txn)) <= 2 * batch_bound i ->
  NoDup (preferred ++ rest) ->
  let r := removePods_loop pick rc fuel i preferred rest txn w in
  exists evs, w_log (snd r) = w_log w ++ evs /\
    strip_audits (txn_ops evs) =
      strip_audits (kvOps (at_tx txn)) ++ flat_map (unschedule_ops rc) (unsched_nodes evs) /\
    (fuel <= length preferred + length rest ->
       fst r = Ok tt /\ length (unsched_nodes evs) = fuel /\
       NoDup (unsched_nodes evs) /\ incl (unsched_nodes evs) (preferred ++ rest)) /\
    (length preferred + length rest < fuel ->
       fst r = Fail (ErrMsg unscheduleEnoughMsg) /\
       Permutation (unsched_nodes evs) (preferred ++ rest)).
Proof.
  intros pick rc fuel. induction fuel as [|fuel IH];
    intros i preferred rest txn w Ht Hc Hl Hnd r; subst r; pose proof (batch_bound_le i).
  - simpl. erewrite bind_ok; [|apply auditCommit_ok; [exact Hc|lia|exact Ht]]. simpl.
    exists [EvTxn (kvOps (at_tx txn) ++ [audit_op (ID rc) txn])].
    rewrite commit_world_snoc_log. split; [reflexivity|].
    split; [simpl; rewrite !app_nil_r, strip_audits_app; simpl; rewrite app_nil_r; reflexivity|].
    split; [|intros; lia].
    intros _. repeat split; [constructor|intros ? []].
  - rewrite removePods_loop_S.
    destruct (ap_stage_ok rc i txn w Hc Hl Ht)
      as (txn1 & w1 & pre1 & Hrun & L1 & A1 & S1 & P1 & Hc1 & Hl1 & [O1 O1']).
    destruct (ap_stage_quiet rc i txn w txn1 w1 pre1 Hrun L1) as [_ U1].
    erewrite bind_ok; [|exact Hrun]. cbv beta.
    assert (Ht1 : forall k ops, w_txner w1 k ops = CallOK) by (intros; rewrite O1'; auto).
    pose proof (Nat.mod_upper_bound i 5) as Hmod. pose proof (batch_bound_S i) as HbS.
    destruct (PopAny pick preferred) as [[x preferred']|] eqn:Pp.
    + apply PopAny_perm in Pp.
      erewrite bind_ok; [|apply unschedule_ok; [exact Hc1|lia]].
      assert (HpAB : Permutation (preferred ++ rest) (x :: (preferred' ++ rest))) by (apply (Permutation_app_tail rest Pp)).
      destruct (pop_combine x (preferred ++ rest) (preferred' ++ rest) [] HpAB Hnd) as [HndA [Hlen _]].
      rewrite !length_app in Hlen.
      destruct (IH (S i) preferred' rest
                  (RemoveNode (withTx txn1 (mkTx (kvOps (at_tx txn1) ++ unschedule_ops rc x) false)) x)
                  (log_ev w1 (EvUnscheduling x)) Ht1 eq_refl) as [evs [L [Pst [C1 C2]]]];
        [simpl; rewrite length_app; simpl; lia|exact HndA|].
      destruct (pop_combine x (preferred ++ rest) (preferred' ++ rest) (unsched_nodes evs) HpAB Hnd)
        as [_ [_ [Cb1 Cb2]]].
      exists (pre1 ++ EvUnscheduling x :: evs).
      assert (Hu : unsched_nodes (pre1 ++ EvUnscheduling x :: evs) = x :: unsched_nodes evs)
        by (rewrite unsched_nodes_app, U1; reflexivity).
      rewrite Hu. split; [rewrite L; simpl; rewrite L1, <- !app_assoc; reflexivity|].
      split.
      { rewrite txn_ops_app, strip_audits_app.
        change (txn_ops (EvUnscheduling x :: evs)) with (txn_ops evs). rewrite Pst.
        cbn [at_tx RemoveNode withTx kvOps flat_map].
        rewrite strip_audits_app, strip_unschedule_ops, <- P1, <- !app_assoc. reflexivity. }
      split.
      { intros Hf. destruct C1 as [R1 [Len1 [Nd1 In1]]]; [simpl in *; lia|].
        split; [exact R1|]. split; [cbn [length]; lia|]. apply Cb1; assumption. }
      { intros Hf. destruct C2 as [R2 Pm2]; [simpl in *; lia|].
        split; [exact R2|]. apply Cb2, Pm2. }
    + apply PopAny_none in Pp. subst preferred.
      destruct (PopAny pick rest) as [[x rest']|] eqn:Pr.
      * apply PopAny_perm in Pr.
        erewrite bind_ok; [|apply unschedule_ok; [exact Hc1|lia]].
        assert (HpAB : Permutation ([] ++ rest) (x :: ([] ++ rest'))) by (exact Pr).
        destruct (pop_combine x ([] ++ rest) ([] ++ rest') [] HpAB Hnd) as [HndA [Hlen _]].
        rewrite !length_app in Hlen.
        destruct (IH (S i) [] rest'
                    (RemoveNode (withTx txn1 (mkTx (kvOps (at_tx txn1) ++ unschedule_ops rc x) false)) x)
                    (log_ev w1 (EvUnscheduling x)) Ht1 eq_refl) as [evs [L [Pst [C1 C2]]]];
          [simpl; rewrite length_app; simpl; lia|exact HndA|].
        destruct (pop_combine x ([] ++ rest) ([] ++ rest') (unsched_nodes evs) HpAB Hnd)
          as [_ [_ [Cb1 Cb2]]].
        exists (pre1 ++ EvUnscheduling x :: evs).
        assert (Hu : unsched_nodes (pre1 ++ EvUnscheduling x :: evs) = x :: unsched_nodes evs)
          by (rewrite unsched_nodes_app, U1; reflexivity).
        rewrite Hu. split; [rewrite L; simpl; rewrite L1, <- !app_assoc; reflexivity|].
        split.
        { rewrite txn_ops_app, strip_audits_app.
          change (txn_ops (EvUnscheduling x :: evs)) with (txn_ops evs). rewrite Pst.
          cbn [at_tx RemoveNode withTx kvOps flat_map].
          rewrite strip_audits_app, strip_unschedule_ops, <- P1, <- !app_assoc. reflexivity. }
        split.
        { intros Hf. destruct C1 as [R1 [Len1 [Nd1 In1]]]; [simpl in *; lia|].
          split; [exact R1|]. split; [cbn [length]; lia|]. apply Cb1; assumption. }
        { intros Hf. destruct C2 as [R2 Pm2]; [simpl in *; lia|].
          split; [exact R2|]. apply Cb2, Pm2. }
      * apply PopAny_none in Pr. subst rest.
        erewrite bind_ok; [|apply auditCommit_ok; [exact Hc1|lia|exact Ht1]]. simpl.
        exists (pre1 ++ [EvTxn (kvOps (at_tx txn1) ++ [audit_op (ID rc) txn1])]).
        rewrite commit_world_snoc_log, L1, <- app_assoc. split; [reflexivity|].
        rewrite unsched_nodes_app, U1. simpl.
        split; [rewrite txn_ops_app, !strip_audits_app; simpl; rewrite !app_nil_r, strip_audits_app;
                simpl; rewrite app_nil_r, <- P1; reflexivity|].
        split; [intros; lia|]. intros _. split; [reflexivity|constructor].
Qed.

Lemma filter_split_perm : forall (f g : NodeName -> bool) l,
  (forall x, In x l -> g x = negb (f x)) -> Permutation (filter f l ++ filter g l) l.
Proof.
  intros f g l. induction l as [|a l IH]; intros H; simpl; [constructor|].
  rewrite (H a (or_introl eq_refl)).
  assert (IH' : Permutation (filter f l ++ filter g l) l) by (apply IH; intros; apply H; right; auto).
  destruct (f a); simpl.
  - apply perm_skip, IH'.
  - eapply Permutation_trans; [apply Permutation_sym, Permutation_middle|]. apply perm_skip, IH'.
Qed.

(** The node sets [removePods] draws from: together, the distinct current
    nodes, each once. *)
Lemma removePods_sets : forall (current : list PodKey) (eligible : list NodeName),
  let nodes := NewNodeSet (map fst current) in
  let preferred := Difference nodes (NewNodeSet eligible) in
  let rest := Difference nodes preferred in
  Permutation (preferred ++ rest) nodes.
Proof.
  intros current eligible nodes preferred rest. unfold preferred at 1, rest, Difference.
  apply filter_split_perm. intros x Hx.
  destruct (mem x (NewNodeSet eligible)) eqn:E; destruct (mem x preferred) eqn:Mp;
    try reflexivity; exfalso.
  - apply mem_In in Mp. unfold preferred, Difference in Mp.
    apply filter_In in Mp as [_ Mp]. rewrite E in Mp. discriminate.
  - assert (In x preferred) by (unfold preferred, Difference; apply filter_In; rewrite E; auto).
    apply mem_In in H. congruence.
Qed.

(** a [removePods] pass against a store that accepts every transaction
    unschedules distinct current nodes, and exactly their intent deletes and
    label removals reach the store besides the audit records.  It succeeds
    having unscheduled [current - desired] nodes when there are that many
    distinct current nodes; otherwise it unschedules every current node and
    fails with the unschedule-enough error. *)
Theorem removePods_unschedules_distinct_nodes : forall pick rc current eligible w,
  (forall k ops, w_txner w k ops = CallOK) ->
  let k := Z.to_nat (Z.of_nat (length current) - ReplicasDesired rc) in
  let nodes := NewNodeSet (map fst current) in
  let r := removePods pick rc current eligible w in
  exists evs, w_log (snd r) = w_log w ++ evs /\
    strip_audits (txn_ops evs) = flat_map (unschedule_ops rc) (unsched_nodes evs) /\
    NoDup (unsched_nodes evs) /\ incl (unsched_nodes evs) (map fst current) /\
    (k <= length nodes -> fst r = Ok tt /\ length (unsched_nodes evs) = k) /\
    (length nodes < k -> fst r = Fail (ErrMsg unscheduleEnoughMsg) /\
       forall n, In n (map fst current) -> In n (unsched_nodes evs)).
Proof.
  intros pick rc current eligible w Ht k nodes r. subst r. unfold removePods.
  pose proof (removePods_sets current eligible) as Hp. cbv zeta in Hp. fold nodes in Hp.
  destruct (NewNodeSet_spec (map fst current)) as [Hnd Hin]. fold nodes in Hnd, Hin.
  set (preferred := Difference nodes (NewNodeSet eligible)) in *.
  set (rest := Difference nodes preferred) in *.
  assert (HndPR : NoDup (preferred ++ rest))
    by (eapply Permutation_NoDup; [apply Permutation_sym, Hp|exact Hnd]).
  pose proof (Permutation_length Hp) as Hlen. rewrite length_app in Hlen.
  destruct (removePods_loop_full pick rc k 0 preferred rest
              (newAuditingTransaction (map fst current)) w Ht eq_refl (le_0_n _) HndPR)
    as [evs [L [P [C1 C2]]]].
  exists evs. split; [exact L|]. split; [exact P|].
  assert (Hsub : forall n, In n (preferred ++ rest) <-> In n (map fst current)).
  { intros n. rewrite <- Hin. split; apply Permutation_in; [exact Hp|apply Permutation_sym, Hp]. }
  destruct (Nat.le_gt_cases k (length nodes)) as [Hk|Hk].
  - destruct C1 as [R [Len [Nd Inc]]]; [lia|].
    split; [exact Nd|]. split; [intros n Hn; apply Hsub, Inc, Hn|].
    split; [intros _; auto|intros; lia].
  - destruct C2 as [R Pm]; [lia|].
    split; [eapply Permutation_NoDup; [apply Permutation_sym, Pm|exact HndPR]|].
    split; [intros n Hn; apply Hsub; apply (Permutation_in _ Pm), Hn|].
    split; [intros; lia|]. split; [exact R|].
    intros n Hn. apply (Permutation_in _ (Permutation_sym Pm)), Hsub, Hn.
Qed.

Lemma removePods_unschedules_distinct_nodes_witness :
  let rc := ex_rc false CattleStrategy 1 in
  let cur := [("n1", "app"); ("n2", "app"); ("n3", "app")] in
  let w := ex_world [] [] None ["n2"] in
  let k := Z.to_nat (Z.of_nat (length cur) - ReplicasDesired rc) in
  let nodes := NewNodeSet (map fst cur) in
  let r := removePods ex_pick rc cur ["n2"] w in
  exists evs, w_log (snd r) = w_log w ++ evs /\
    strip_audits (txn_ops evs) = flat_map (unschedule_ops rc) (unsched_nodes evs) /\
    NoDup (unsched_nodes evs) /\ incl (unsched_nodes evs) (map fst cur) /\
    (k <= length nodes -> fst r = Ok tt /\ length (unsched_nodes evs) = k) /\
    (length nodes < k -> fst r = Fail (ErrMsg unscheduleEnoughMsg) /\
       forall n, In n (map fst cur) -> In n (unsched_nodes evs)).
Proof.
  exact (removePods_unschedules_distinct_nodes ex_pick (ex_rc false CattleStrategy 1)
           [("n1", "app"); ("n2", "app"); ("n3", "app")] ["n2"] (ex_world [] [] None ["n2"])
           (fun _ _ => eq_refl)).
Defined.

(* ------------------------------------------------------------------------- *)
(** ** meetDesires *)

(** The world after a sequence of interactions that change nothing. *)
Definition log_evs (w : World) (evs : list Event) : World := fold_left log_ev evs w.

Lemma ec_stage_empty : forall i t w,
  committed t = false -> kvOps t = [] ->
  exists t1, ec_stage i t w = (Ok t1, w) /\ committed t1 = false /\ kvOps t1 = [].
Proof.
  intros i t w Hc Hk. unfold ec_stage. destruct (batchBoundary i).
  - exists emptyTx. unfold bind, commit. rewrite Hc, Hk. auto.
  - exists t. auto.
Qed.

Lemma ensureConsistency_loop_quiet : forall SHA rc msha pods i t w,
  committed t = false -> kvOps t = [] ->
  (forall pod, In pod pods -> w_fails w (EvPodRead (fst pod) (snd pod)) = false /\
                              intentConsistent SHA msha (kv_get (w_intent w) pod) = true) ->
  ensureConsistency_loop SHA rc msha pods i t w =
  (Ok tt, log_evs w (map (fun pod => EvPodRead (fst pod) (snd pod)) pods)).
Proof.
  intros SHA rc msha pods. induction pods as [|pod pods IH]; intros i t w Hc Hk Hp.
  - simpl. unfold bind, commit. rewrite Hc, Hk. reflexivity.
  - rewrite ensureConsistency_loop_cons.
    destruct (ec_stage_empty i t w Hc Hk) as [t1 [Hrun [Hc1 Hk1]]].
    erewrite bind_ok; [|exact Hrun]. cbv beta.
    destruct (Hp pod (or_introl eq_refl)) as [Hr Hi]. destruct pod as [n p].
    erewrite bind_ok; [|apply podIntent_ok; exact Hr]. cbv beta. simpl in Hi |- *. rewrite Hi.
    apply IH; [exact Hc1|exact Hk1|]. intros pod' Hin. apply Hp. right. exact Hin.
Qed.

(** a [meetDesires] pass on an RC in its steady state (as many current
    pods as desired, every current node eligible, every stored intent
    hashing to the manifest's hash, all reads succeeding) only reads: it
    queries the pods, the eligible nodes and each pod's intent, writes
    nothing, and succeeds. *)
Theorem meetDesires_steady_state_only_reads : forall SHA pick rc w msha current,
  Disabled rc = false -> SHA (RC_Manifest rc) = Some msha ->
  w_fails w EvEligibleNodes = false ->
  fst (CurrentPods (ID rc) w) = Ok current ->
  Z.of_nat (length current) = ReplicasDesired rc ->
  (forall n, In n (map fst current) -> In n (w_eligible w)) ->
  (forall pod, In pod current -> w_fails w (EvPodRead (fst pod) (snd pod)) = false /\
                                 intentConsistent SHA msha (kv_get (w_intent w) pod) = true) ->
  meetDesires SHA pick rc w =
  (Ok tt, log_evs w (EvGetMatches :: EvEligibleNodes ::
                     map (fun pod => EvPodRead (fst pod) (snd pod)) current)).
Proof.
  intros SHA pick rc w msha current Hd Hsha He Hcur Hlen Hel Hpods.
  unfold meetDesires. rewrite Hd.
  assert (Hc : CurrentPods (ID rc) w = (Ok current, log_ev w EvGetMatches)).
  { unfold CurrentPods in *. destruct (w_fails w EvGetMatches); [discriminate|].
    simpl in Hcur. injection Hcur as <-. reflexivity. }
  erewrite bind_ok; [|exact Hc]. cbv beta.
  erewrite bind_ok; [|unfold eligibleNodes; simpl; rewrite He; reflexivity]. cbv beta.
  rewrite Hlen, Z.ltb_irrefl. simpl w_eligible.
  erewrite bind_ok; [|reflexivity]. cbv beta.
  erewrite bind_ok; [|reflexivity]. cbv beta.
  rewrite (proj2 (checkForIneligible_nil current (w_eligible w)) Hel).
  erewrite bind_ok; [|reflexivity]. cbv beta.
  unfold ensureConsistency. rewrite Hsha.
  apply ensureConsistency_loop_quiet; [reflexivity|reflexivity|exact Hpods].
Qed.

Lemma meetDesires_steady_state_only_reads_witness :
  let rc := ex_rc false CattleStrategy 1 in
  let w := ex_world [(("n1", "app"), computePodLabels rc)] [(("n1", "app"), ex_manifest)]
                    None ["n1"] in
  meetDesires ex_SHA ex_pick rc w =
  (Ok tt, log_evs w (EvGetMatches :: EvEligibleNodes ::
                     map (fun pod => EvPodRead (fst pod) (snd pod)) [("n1", "app")])).
Proof.
  apply (meetDesires_steady_state_only_reads ex_SHA ex_pick (ex_rc false CattleStrategy 1)
           (ex_world [(("n1", "app"), computePodLabels (ex_rc false CattleStrategy 1))]
                     [(("n1", "app"), ex_manifest)] None ["n1"]) "v1" [("n1", "app")]).
  - reflexivity.
  - reflexivity.
  - reflexivity.
  - vm_compute. reflexivity.
  - reflexivity.
  - simpl. intros n [<-|[]]. left. reflexivity.
  - simpl. intros pod [<-|[]]. split; reflexivity.
Defined.

(** a [meetDesires] pass on an enabled RC stops at the first failing
    read, before anything is written: when the pod query fails it fails
    after that query alone; when the eligible-node query fails it fails
    after the two queries. *)
Theorem meetDesires_read_failure_aborts : forall SHA pick rc w,
  Disabled rc = false ->
  (w_fails w EvGetMatches = true ->
   meetDesires SHA pick rc w = (Fail ErrRead, log_evs w [EvGetMatches])) /\
  (w_fails w EvGetMatches = false -> w_fails w EvEligibleNodes = true ->
   meetDesires SHA pick rc w = (Fail ErrRead, log_evs w [EvGetMatches; EvEligibleNodes])).
Proof.
  intros SHA pick rc w Hd. unfold meetDesires. rewrite Hd. split.
  - intros Hg. unfold bind at 1, CurrentPods. rewrite Hg. reflexivity.
  - intros Hg He. unfold bind at 1, CurrentPods. rewrite Hg.
    unfold bind, eligibleNodes. simpl. rewrite He. reflexivity.
Qed.

Lemma meetDesires_read_failure_aborts_witness :
  let w := mkWorld [] [] None [] [] (fun e => match e with EvGetMatches => true | _ => false end)
                   (fun _ _ => CallOK) [] in
  meetDesires ex_SHA ex_pick (ex_rc false CattleStrategy 1) w
    = (Fail ErrRead, log_evs w [EvGetMatches]).
Proof.
  apply (meetDesires_read_failure_aborts ex_SHA ex_pick (ex_rc false CattleStrategy 1)
           (mkWorld [] [] None [] [] (fun e => match e with EvGetMatches => true | _ => false end)
                    (fun _ _ => CallOK) [])); reflexivity.
Defined.

(** [transferNodes] on a cattle RC with no transfer recorded, when the
    status read, the deallocation and the allocation succeed and the store
    accepts every transaction, starts a transfer from the first ineligible
    node to the first allocated one: it records the transfer in the status,
    then writes the RC's manifest to the new node's intent without any label
    write, in two transactions, and succeeds. *)
Theorem transferNodes_starts_transfer : forall rc old rest n more w,
  AllocationStrategy rc = CattleStrategy -> w_status w = None ->
  w_fails w EvStatusGet = false ->
  w_fails w (EvDeallocate [old]) = false -> w_fails w (EvAllocate 1) = false ->
  w_alloc w = n :: more -> (forall k ops, w_txner w k ops = CallOK) ->
  let r := transferNodes rc (old :: rest) w in
  fst r = Ok tt /\
  w_status (snd r) = Some (mkNodeTransfer old n) /\
  kv_get (w_intent (snd r)) (n, man_id (RC_Manifest rc)) = Some (RC_Manifest rc) /\
  w_labels (snd r) = w_labels w /\
  w_log (snd r) = w_log w ++ [EvStatusGet; EvDeallocate [old]; EvAllocate 1;
                              EvTxn [OpCASStatus 0 (Some (mkNodeTransfer old n))];
                              EvScheduling n; EvTxn [OpSetIntent n (RC_Manifest rc)]].
Proof.
  intros rc old rest n more w Hs Hst Hg H1 H2 H3 Ht r. subst r.
  unfold transferNodes, isNodeTransferInProgress.
  erewrite bind_ok; [|erewrite bind_ok; [|unfold statusGet; rewrite Hg; reflexivity];
                      reflexivity].
  rewrite Hst. cbv iota.
  unfold updateAllocationsAndReschedule. rewrite Hs.
  erewrite bind_ok; [|erewrite bind_ok; [|apply (updateAllocations_ok rc old rest n more);
                                          assumption]; cbv beta;
                      erewrite bind_ok; [|apply scheduleWithoutLabel_ok; exact Ht];
                      reflexivity].
  unfold ret. cbn [fst snd].
  split; [reflexivity|]. unfold commit_world at 1. simpl.
  split; [reflexivity|]. split; [apply kv_get_set_same|]. split; [reflexivity|].
  rewrite <- !app_assoc. reflexivity.
Qed.

Lemma transferNodes_starts_transfer_witness :
  let rc := ex_rc false CattleStrategy 1 in
  let w := mkWorld [] [] None [] ["n9"] (fun _ => false) (fun _ _ => CallOK) [] in
  let r := transferNodes rc ["n1"] w in
  fst r = Ok tt /\
  w_status (snd r) = Some (mkNodeTransfer "n1" "n9") /\
  kv_get (w_intent (snd r)) ("n9", man_id (RC_Manifest rc)) = Some (RC_Manifest rc) /\
  w_labels (snd r) = w_labels w /\
  w_log (snd r) = w_log w ++ [EvStatusGet; EvDeallocate ["n1"]; EvAllocate 1;
                              EvTxn [OpCASStatus 0 (Some (mkNodeTransfer "n1" "n9"))];
                              EvScheduling "n9"; EvTxn [OpSetIntent "n9" (RC_Manifest rc)]].
Proof.
  exact (transferNodes_starts_transfer (ex_rc false CattleStrategy 1) "n1" [] "n9" []
           (mkWorld [] [] None [] ["n9"] (fun _ => false) (fun _ _ => CallOK) [])
           eq_refl eq_refl eq_refl eq_refl eq_refl eq_refl (fun _ _ => eq_refl)).
Defined.

Lemma batchBoundary_small : forall i, i <= 4 -> batchBoundary i = false.
Proof. intros [|[|[|[|[|i]]]]] H; try reflexivity; lia. Qed.

Lemma ensureConsistency_loop_read_fail : forall SHA rc msha pods bad rest i t w,
  i + length pods <= 4 -> committed t = false -> length (kvOps t) <= 2 * i ->
  (forall pod, In pod pods -> w_fails w (EvPodRead (fst pod) (snd pod)) = false) ->
  w_fails w (EvPodRead (fst bad) (snd bad)) = true ->
  fst (ensureConsistency_loop SHA rc msha (pods ++ bad :: rest) i t w) = Fail ErrRead /\
  exists evs, w_log (snd (ensureConsistency_loop SHA rc msha (pods ++ bad :: rest) i t w))
                = w_log w ++ evs /\ filter is_txn evs = [].
Proof.
  intros SHA rc msha pods bad rest. induction pods as [|pod pods IH];
    intros i t w Hi Hc Hl Hr Hb; simpl app; rewrite ensureConsistency_loop_cons;
    unfold ec_stage; simpl in Hi; rewrite batchBoundary_small by lia;
    erewrite bind_ok; try reflexivity; cbv beta.
  - erewrite bind_fail; [|unfold podIntent; rewrite Hb; reflexivity]. split; [reflexivity|].
    exists [EvPodRead (fst bad) (snd bad)]. split; reflexivity.
  - pose proof (Hr pod (or_introl eq_refl)) as Hp.
    erewrite bind_ok; [|apply podIntent_ok; exact Hp]. cbv beta.
    assert (Hr' : forall pod', In pod' pods -> w_fails w (EvPodRead (fst pod') (snd pod')) = false)
      by (intros; apply Hr; right; assumption).
    destruct (intentConsistent SHA msha _).
    + destruct (IH (S i) t (log_ev w (EvPodRead (fst pod) (snd pod))) ltac:(lia) Hc ltac:(lia)
                   Hr' Hb) as [R [evs [L F]]].
      split; [exact R|]. exists (EvPodRead (fst pod) (snd pod) :: evs).
      rewrite L. simpl. rewrite <- app_assoc. split; [reflexivity|exact F].
    + erewrite bind_ok; [|apply scheduleNoAudit_ok; [exact Hc|lia]]. cbv beta.
      destruct (IH (S i) (mkTx (kvOps t ++ schedule_ops rc (fst pod)) false) (log_ev (log_ev w (EvPodRead (fst pod) (snd pod))) (EvScheduling (fst pod)))
                   ltac:(lia) eq_refl ltac:(simpl; rewrite length_app; simpl; lia) Hr' Hb)
        as [R [evs [L F]]].
      split; [exact R|]. exists (EvPodRead (fst pod) (snd pod) :: EvScheduling (fst pod) :: evs).
      rewrite L. simpl. rewrite <- !app_assoc. split; [reflexivity|exact F].
Qed.

(** when an intent read fails within the first five placements,
    [ensureConsistency] fails with the read error and sends no transaction:
    the label and intent rewrites it had staged for the placements before
    the failing one are dropped. *)
Theorem ensureConsistency_read_failure_drops_batch : forall SHA rc msha pods bad rest w,
  SHA (RC_Manifest rc) = Some msha -> length pods <= 4 ->
  (forall pod, In pod pods -> w_fails w (EvPodRead (fst pod) (snd pod)) = false) ->
  w_fails w (EvPodRead (fst bad) (snd bad)) = true ->
  fst (ensureConsistency SHA rc (pods ++ bad :: rest) w) = Fail ErrRead /\
  exists evs, w_log (snd (ensureConsistency SHA rc (pods ++ bad :: rest) w)) = w_log w ++ evs /\
    filter is_txn evs = [].
Proof.
  intros SHA rc msha pods bad rest w Hsha Hlen Hr Hb. unfold ensureConsistency. rewrite Hsha.
  apply ensureConsistency_loop_read_fail; simpl; auto; lia.
Qed.

Lemma ensureConsistency_read_failure_drops_batch_witness :
  let rc := ex_rc false CattleStrategy 2 in
  let w := mkWorld [] [] None [] []
             (fun e => match e with EvPodRead "n2" _ => true | _ => false end)
             (fun _ _ => CallOK) [] in
  fst (ensureConsistency ex_SHA rc ([("n1", "app")] ++ ("n2", "app") :: []) w) = Fail ErrRead /\
  exists evs, w_log (snd (ensureConsistency ex_SHA rc ([("n1", "app")] ++ ("n2", "app") :: []) w))
                = w_log w ++ evs /\ filter is_txn evs = [].
Proof.
  apply (ensureConsistency_read_failure_drops_batch ex_SHA (ex_rc false CattleStrategy 2) "v1"
           [("n1", "app")] ("n2", "app") []
           (mkWorld [] [] None [] []
              (fun e => match e with EvPodRead "n2" _ => true | _ => false end)
              (fun _ _ => CallOK) [])).
  - reflexivity.
  - simpl. lia.
  - simpl. intros pod [<-|[]]. reflexivity.
  - reflexivity.
Defined.
